(** * parse_drd.py: header location, span segmentation and tree assembly

    A shallow embedding of [src/parse_drd.py].  The text buffer is a list of
    characters; the two regular expressions of the script are values of a small
    regex syntax run by a backtracking matcher with Python's greedy
    longest-first order; [re.finditer] is the leftmost, non-overlapping scan;
    the two [for ... in enumerate(...)] loops thread their accumulators
    explicitly; every Python operation that can raise ([match.group],
    [int], [dict[key]]) returns an [option] and the loops run in the option
    monad, so that an exception is a [None] and the absence of exceptions is
    a theorem.

    Characters are code points below 256 ([ascii]).  On that range Python's
    [\s] and [str.strip] agree on the set [is_space], [\d] is ['0'..'9'] and
    [.] is every character but the line feed.  The one setting of the
    interpreter that the script depends on, the cap on the number of digits
    that [int] converts, is a parameter of the parser. *)

From Stdlib Require Import ZArith Ascii String List Bool Lia DecimalString.
From stdpp Require Import base option list strings gmap.

(** ** Characters and strings *)

Definition chars (s : string) : list ascii := list_ascii_of_string s.

Definition ord (c : ascii) : nat := nat_of_ascii c.

(** [str.isspace] and the regex class [\s]: TAB..CR, FS..US, space, NEL and
    the no-break space. *)
Definition is_space (c : ascii) : bool :=
  let n := ord c in
  ((9 <=? n) && (n <=? 13)) || ((28 <=? n) && (n <=? 32)) || (n =? 133) || (n =? 160).

(** The regex class [\d]. *)
Definition is_digit (c : ascii) : bool :=
  let n := ord c in (48 <=? n) && (n <=? 57).

(** The regex class [[A-Z]]. *)
Definition is_upper (c : ascii) : bool :=
  let n := ord c in (65 <=? n) && (n <=? 90).

(** The regex atom [.] (no DOTALL flag): anything but the line feed. *)
Definition not_newline (c : ascii) : bool := negb (ord c =? 10).

(** The characters at which [str.splitlines] breaks a line: LF, VT, FF, CR,
    FS, GS, RS and NEL. *)
Definition is_linebreak (c : ascii) : bool :=
  let n := ord c in
  ((10 <=? n) && (n <=? 13)) || ((28 <=? n) && (n <=? 30)) || (n =? 133).

Definition newline : ascii := "010"%char.
Definition space : ascii := " "%char.

(** [s[a:b]] for non-negative [a] and [b]. *)
Definition slice (s : list ascii) (a b : nat) : list ascii := take (b - a) (drop a s).

(** [s.replace(old, new)] for one-character [old] and [new]. *)
Definition replace (old new : ascii) (s : list ascii) : list ascii :=
  (λ c, if decide (c = old) then new else c) <$> s.

Fixpoint lstrip (s : list ascii) : list ascii :=
  match s with
  | c :: s' => if is_space c then lstrip s' else s
  | [] => []
  end.

Definition rstrip (s : list ascii) : list ascii := reverse (lstrip (reverse s)).

(** [s.strip()] *)
Definition strip (s : list ascii) : list ascii := rstrip (lstrip s).

(** [re.sub(r'\s+', ' ', s)]: every maximal run of white space becomes one
    space.  [in_run] tells that the character before [s] was white space. *)
Fixpoint sub_spaces (in_run : bool) (s : list ascii) : list ascii :=
  match s with
  | c :: s' =>
      if is_space c then (if in_run then sub_spaces true s' else space :: sub_spaces true s')
      else c :: sub_spaces false s'
  | [] => []
  end.

Definition re_sub_spaces (s : list ascii) : list ascii := sub_spaces false s.

(** Lines 45 and 47: what is stored as a Level's description. *)
Definition normalize_description (text : list ascii) : list ascii :=
  re_sub_spaces (strip (replace newline space text)).

(** The order of the specification: replace, collapse, then trim. *)
Definition normalize_description_spec (text : list ascii) : list ascii :=
  strip (re_sub_spaces (replace newline space text)).

(** The value of a string of decimal digits. *)
Definition digit_value (c : ascii) : Z := Z.of_nat (ord c) - 48.

Definition digits_value (s : list ascii) : Z :=
  foldl (λ acc c, 10 * acc + digit_value c)%Z 0%Z s.

(** [str(n)], as used by the f-strings. *)
Definition str (n : Z) : list ascii := chars (NilZero.string_of_int (Z.to_int n)).

(** ** Regular expressions *)

Inductive atom :=
| Lit (c : ascii)          (* a literal character *)
| Cls (p : ascii → bool)   (* one character of a class *)
| Star (p : ascii → bool)  (* greedy [p*] *)
| Plus (p : ascii → bool). (* greedy [p+] *)

(** A pattern is a sequence of atoms; the flag marks the atoms that sit in a
    capture group. *)
Definition regex := list (bool * atom).

(** A successful match: the captured groups and the number of characters
    consumed. *)
Definition found : Type := list (list ascii) * nat.

Definition emit (cap : bool) (w : list ascii) (r : found) : found :=
  (if cap then w :: r.1 else r.1, length w + r.2).

(** Greedy repetition with backtracking: take as many characters of [p] as
    there are, and give them back one by one while the rest of the pattern,
    [k], fails. *)
Fixpoint greedy (p : ascii → bool) (k : list ascii → option found) (s : list ascii)
  : option (list ascii * found) :=
  match s with
  | c :: s' =>
      if p c then
        match greedy p k s' with
        | Some (w, r) => Some (c :: w, r)
        | None => pair [] <$> k s
        end
      else pair [] <$> k s
  | [] => pair [] <$> k s
  end.

(** [pattern.match] anchored at the head of [s]. *)
Fixpoint match_here (re : regex) (s : list ascii) {struct re} : option found :=
  match re with
  | [] => Some ([], 0)
  | (cap, a) :: re' =>
      match a with
      | Lit x =>
          match s with
          | c :: s' => if decide (c = x) then emit cap [c] <$> match_here re' s' else None
          | [] => None
          end
      | Cls p =>
          match s with
          | c :: s' => if p c then emit cap [c] <$> match_here re' s' else None
          | [] => None
          end
      | Star p => (λ wr, emit cap wr.1 wr.2) <$> greedy p (match_here re') s
      | Plus p =>
          match s with
          | c :: s' =>
              if p c then (λ wr, emit cap (c :: wr.1) wr.2) <$> greedy p (match_here re') s'
              else None
          | [] => None
          end
      end
  end.

(** A match object: [m.start()], [m.end()] and the captured groups. *)
Record rmatch := { m_start : nat; m_end : nat; m_groups : list (list ascii) }.

(** [m.group(k)] for [k >= 1]; a group the pattern does not have is the
    [IndexError] branch. *)
Definition group (m : rmatch) (k : nat) : option (list ascii) := m_groups m !! (k - 1).

(** The scan of [finditer]: try the pattern at [pos]; after a match, the next
    attempt is at its end ([skip] counts the characters still to pass over). *)
Fixpoint scan (re : regex) (pos skip : nat) (s : list ascii) : list rmatch :=
  match skip with
  | S k => match s with [] => [] | _ :: s' => scan re (S pos) k s' end
  | 0 =>
      match match_here re s with
      | Some (gs, n) =>
          {| m_start := pos; m_end := pos + n; m_groups := gs |} ::
          match s with [] => [] | _ :: s' => scan re (S pos) (n - 1) s' end
      | None => match s with [] => [] | _ :: s' => scan re (S pos) 0 s' end
      end
  end.

(** [list(pattern.finditer(s))] *)
Definition finditer (re : regex) (s : list ascii) : list rmatch := scan re 0 0 s.

Definition lit (s : string) : regex := (λ c, (false, Lit c)) <$> chars s.

(** Line 16: the word Area and a space, a digit (group 1), a capital letter
    (group 2), a dot, white space, and the rest of the line (group 3). *)
Definition area_pattern : regex :=
  lit "Area " ++
  [(true, Cls is_digit); (true, Cls is_upper); (false, Lit "."%char);
   (false, Star is_space); (true, Star not_newline)].

(** Line 17: the word Level, white space, digits (group 1), white space, a
    dot, white space, and the rest of the line (group 2). *)
Definition level_pattern : regex :=
  lit "Level" ++
  [(false, Star is_space); (true, Plus is_digit); (false, Star is_space);
   (false, Lit "."%char); (false, Star is_space); (true, Star not_newline)].

(** ** The result tree *)

Record Level := { level : Z; title : list ascii; description : list ascii }.
Record Area := { area_id : list ascii; area_name : list ascii; levels : list Level }.
Record Axis := { axis_id : Z; axis_name : list ascii; areas : list Area }.

(** ** The two loops *)

(** [for i, x in enumerate(l)] with the loop state passed along; a failing
    body aborts the loop. *)
Fixpoint for_enumerate {St A} (body : St → nat → A → option St)
    (i : nat) (l : list A) (st : St) : option St :=
  match l with
  | [] => Some st
  | x :: l' => st' ← body st i x; for_enumerate body (S i) l' st'
  end.

(** Lines 30 and 43: [matches[i+1].start() if i + 1 < len(matches) else
    len(buffer)]. *)
Definition span_end (buffer : list ascii) (matches : list rmatch) (i : nat) : nat :=
  match matches !! (i + 1) with
  | Some next => m_start next
  | None => length buffer
  end.

(** Lines 29-32 and 42-45: the text between a header and the next one. *)
Definition span_text (buffer : list ascii) (matches : list rmatch) (i : nat) (m : rmatch)
  : list ascii :=
  slice buffer (m_end m) (span_end buffer matches i).

(** Lines 57-70.  [axis_entry] is an alias of an element of [drd_data]; it is
    kept as the index of that element, and the append to its areas is an
    update of [drd_data] at that index. *)
Definition add_area (drd_data : list Axis) (axis_num : Z) (area : Area) : list Axis :=
  let '(drd_data, axis_entry) :=
    match list_find (λ x, axis_id x = axis_num) drd_data with
    | Some (k, _) => (drd_data, k)
    | None =>
        (drd_data ++ [{| axis_id := axis_num;
                         axis_name := chars "Axis " ++ str axis_num;
                         areas := [] |}],
         length drd_data)
    end in
  alter (λ x, {| axis_id := axis_id x; axis_name := axis_name x;
                 areas := areas x ++ [area] |}) axis_entry drd_data.

Section interpreter.

(** The interpreter's cap on the number of digits that [int] converts,
    [sys.get_int_max_str_digits()]: 4300 unless set otherwise, 0 for no cap
    (as in the versions of Python that have none). *)
Variable max_str_digits : nat.

(** [int(s)] on the strings the two patterns capture: a non-empty string of
    digits within the cap converts, anything else is the [ValueError]
    branch. *)
Definition int (s : list ascii) : option Z :=
  match s with
  | [] => None
  | _ =>
      if forallb is_digit s && ((max_str_digits =? 0) || (length s <=? max_str_digits))
      then Some (digits_value s)
      else None
  end.

(** Lines 39-53, the body of the inner loop. *)
Definition level_step (area_text : list ascii) (level_matches : list rmatch)
    (levels : list Level) (j : nat) (l_match : rmatch) : option (list Level) :=
  g1 ← group l_match 1;
  lvl_num ← int g1;
  g2 ← group l_match 2;
  let lvl_title := strip g2 in
  let lvl_desc := normalize_description (span_text area_text level_matches j l_match) in
  Some (levels ++ [{| level := lvl_num; title := lvl_title; description := lvl_desc |}]).

(** Lines 35-53. *)
Definition parse_levels (area_text : list ascii) : option (list Level) :=
  let level_matches := finditer level_pattern area_text in
  for_enumerate (level_step area_text level_matches) 0 level_matches [].

(** Lines 25-70, the body of the outer loop. *)
Definition area_step (content : list ascii) (area_matches : list rmatch)
    (drd_data : list Axis) (i : nat) (m : rmatch) : option (list Axis) :=
  g1 ← group m 1;
  axis_num ← int g1;
  area_letter ← group m 2;
  g3 ← group m 3;
  let area_name := strip g3 in
  let area_text := span_text content area_matches i m in
  levels ← parse_levels area_text;
  Some (add_area drd_data axis_num
          {| area_id := str axis_num ++ area_letter;
             area_name := area_name;
             levels := levels |}).

(** [parse_drd_content], from the content read from the file on (lines 8-72;
    opening and reading the file is left to the caller). *)
Definition parse_drd_content (content : list ascii) : option (list Axis) :=
  let area_matches := finditer area_pattern content in
  for_enumerate (area_step content area_matches) 0 area_matches [].

End interpreter.

(** [sys.int_info.default_max_str_digits] *)
Definition default_max_str_digits : nat := 4300.

(** ** The name table of the main block *)

(** Lines 78-86. *)
Definition axis_names : gmap Z (list ascii) :=
  list_to_map
    [(1, chars "Digital Processes"); (2, chars "Digital Products");
     (3, chars "Digital Business Models"); (4, chars "Data Management");
     (5, chars "Digital Culture"); (6, chars "Cybersecurity");
     (7, chars "Artificial Intelligence")]%Z.

(** Lines 89-90, the body of the loop over the axes: [key in names] guards
    [names[key]], whose failure is the [KeyError] branch. *)
Definition rename_axis (names : gmap Z (list ascii)) (axis : Axis) : option Axis :=
  if decide (is_Some (names !! axis_id axis)) then
    new_name ← names !! axis_id axis;
    Some {| axis_id := axis_id axis; axis_name := new_name; areas := areas axis |}
  else Some axis.

(** Lines 88-90. *)
Definition enrich_names (names : gmap Z (list ascii)) (data : list Axis)
  : option (list Axis) :=
  mapM (rename_axis names) data.

(** ** The scenario of the specification *)

Definition LF : string := String newline EmptyString.

Definition scenario : list ascii :=
  chars ("Area 1A. Processes" ++ LF ++ "Level 1. Basic" ++ LF ++ "some text" ++ LF ++
         "Level 2. Advanced" ++ LF ++ "more text" ++ LF ++
         "Area 1B. Other" ++ LF ++ "Level 1. X" ++ LF ++ "text")%string.

(** ** Auxiliary notions for the statements *)

(** The atoms of a pattern that sit in a capture group, in order. *)
Definition captures (re : regex) : list atom :=
  omap (λ ca : bool * atom, if ca.1 then Some ca.2 else None) re.

(** What a captured atom can have captured. *)
Definition group_ok (a : atom) (g : list ascii) : Prop :=
  match a with
  | Lit x => g = [x]
  | Cls p => ∃ c, g = [c] ∧ p c = true
  | Star p => Forall (λ c, p c = true) g
  | Plus p => g ≠ [] ∧ Forall (λ c, p c = true) g
  end.

(** The matches lie in [lo, hi], one after the other. *)
Fixpoint placed (lo hi : nat) (ms : list rmatch) : Prop :=
  match ms with
  | [] => True
  | m :: ms' => lo ≤ m_start m ∧ m_start m ≤ m_end m ∧ m_end m ≤ hi ∧ placed (m_end m) hi ms'
  end.

(** The text of a header: [buffer[m.start():m.end()]]. *)
Definition header_text (buffer : list ascii) (m : rmatch) : list ascii :=
  slice buffer (m_start m) (m_end m).

(** The spans of all the matches of a pattern in a buffer, in order. *)
Definition spans (re : regex) (buffer : list ascii) : list (list ascii) :=
  let matches := finditer re buffer in
  imap (span_text buffer matches) matches.

(** Each header followed by its span, in order. *)
Definition headers_and_spans (re : regex) (buffer : list ascii) : list (list ascii) :=
  let matches := finditer re buffer in
  imap (λ i m, header_text buffer m ++ span_text buffer matches i m) matches.

(** No line break in a text. *)
Definition no_linebreak (d : list ascii) : Prop :=
  ∀ c, c ∈ d → is_linebreak c = false.

(** No two white-space characters next to each other. *)
Definition no_space_run (d : list ascii) : Prop :=
  ∀ i c c', d !! i = Some c → d !! (i + 1) = Some c' →
    is_space c = true → is_space c' = false.

(** No white space at either end. *)
Definition trimmed (d : list ascii) : Prop :=
  (∀ c, head d = Some c → is_space c = false) ∧
  (∀ c, last d = Some c → is_space c = false).

(** The executable form of [no_space_run]. *)
Fixpoint single_spaced (s : list ascii) : bool :=
  match s with
  | c :: s' =>
      match s' with
      | c' :: _ => negb (is_space c && is_space c')
      | [] => true
      end && single_spaced s'
  | [] => true
  end.

(** A normalized text: its only white space is single spaces between other
    characters. *)
Definition tidy (d : list ascii) : Prop :=
  (∀ c, c ∈ d → is_space c = true → c = space) ∧
  single_spaced d = true ∧ trimmed d.

(** ** The loops in closed form *)

(** [m.group(k)] where the group exists. *)
Definition group_text (m : rmatch) (k : nat) : list ascii := default [] (group m k).

(** The Level entry that the inner loop appends for match [j]. *)
Definition level_of (area_text : list ascii) (level_matches : list rmatch)
    (j : nat) (l_match : rmatch) : Level :=
  {| level := digits_value (group_text l_match 1);
     title := strip (group_text l_match 2);
     description := normalize_description (span_text area_text level_matches j l_match) |}.

Definition levels_of (area_text : list ascii) : list Level :=
  let level_matches := finditer level_pattern area_text in
  imap (level_of area_text level_matches) level_matches.

(** The axis number of an outer match: [int(match.group(1))]. *)
Definition axis_num_of (m : rmatch) : Z := digits_value (group_text m 1).

(** The Area entry that the outer loop builds for match [i]. *)
Definition area_of (content : list ascii) (area_matches : list rmatch)
    (i : nat) (m : rmatch) : Area :=
  {| area_id := str (axis_num_of m) ++ group_text m 2;
     area_name := strip (group_text m 3);
     levels := levels_of (span_text content area_matches i m) |}.

(** What the outer matches contribute, in encounter order: the axis number
    and the Area of each. *)
Definition contributions (content : list ascii) : list (Z * Area) :=
  let area_matches := finditer area_pattern content in
  imap (λ i m, (axis_num_of m, area_of content area_matches i m)) area_matches.

(** The tree assembled from a list of contributions. *)
Definition assemble (l : list (Z * Area)) : list Axis :=
  foldl (λ drd_data p, add_area drd_data p.1 p.2) [] l.

(** The Level numbers of a text have no more digits than the cap allows. *)
Definition levels_convertible (max_str_digits : nat) (area_text : list ascii) : Prop :=
  ∀ j l_match, finditer level_pattern area_text !! j = Some l_match →
    max_str_digits = 0 ∨ length (group_text l_match 1) ≤ max_str_digits.

(** The same for the text of every Area of a buffer. *)
Definition within_cap (max_str_digits : nat) (content : list ascii) : Prop :=
  ∀ i m, finditer area_pattern content !! i = Some m →
    levels_convertible max_str_digits
      (span_text content (finditer area_pattern content) i m).

(** The distinct numbers of a list, each at the place of its first
    occurrence. *)
Fixpoint first_seen (l : list Z) : list Z :=
  match l with
  | [] => []
  | n :: l' => n :: filter (λ k, k ≠ n) (first_seen l')
  end.

(** The Axis entry of number [n]: the placeholder name of line 61 and the
    Areas contributed under [n], in encounter order. *)
Definition axis_for (l : list (Z * Area)) (n : Z) : Axis :=
  {| axis_id := n;
     axis_name := chars "Axis " ++ str n;
     areas := (filter (λ p, p.1 = n) l).*2 |}.

(** An Axis entry after lines 89-90. *)
Definition renamed (names : gmap Z (list ascii)) (axis : Axis) : Axis :=
  {| axis_id := axis_id axis;
     axis_name := default (axis_name axis) (names !! axis_id axis);
     areas := areas axis |}.

(** The number of Areas in a tree. *)
Definition area_count (drd_data : list Axis) : nat := length (concat (areas <$> drd_data)).

(** The tree expected for the scenario. *)
Definition scenario_area_1A : Area :=
  {| area_id := chars "1A"; area_name := chars "Processes";
     levels :=
       [{| level := 1; title := chars "Basic"; description := chars "some text" |};
        {| level := 2; title := chars "Advanced"; description := chars "more text" |}] |}.

Definition scenario_area_1B : Area :=
  {| area_id := chars "1B"; area_name := chars "Other";
     levels := [{| level := 1; title := chars "X"; description := chars "text" |}] |}.

Definition scenario_axis : Axis :=
  {| axis_id := 1; axis_name := chars "Axis 1";
     areas := [scenario_area_1A; scenario_area_1B] |}.

(** A buffer whose only Area has no Level header in its span. *)
Definition bare_area : list ascii := chars "Area 3C. Strategy".

(** ** Notions for the further properties *)

(** The longest prefix of characters of a class, and what follows it. *)
Fixpoint take_while (p : ascii → bool) (s : list ascii) : list ascii :=
  match s with
  | c :: s' => if p c then c :: take_while p s' else []
  | [] => []
  end.

Fixpoint drop_while (p : ascii → bool) (s : list ascii) : list ascii :=
  match s with
  | c :: s' => if p c then drop_while p s' else s
  | [] => []
  end.

(** What follows a literal prefix, if the text starts with it. *)
Fixpoint after_prefix (pre s : list ascii) : option (list ascii) :=
  match pre, s with
  | [], _ => Some s
  | x :: pre', c :: s' => if decide (c = x) then after_prefix pre' s' else None
  | _ :: _, [] => None
  end.

(** The pattern of line 16 read once from left to right, without
    backtracking: the word and the space, a digit, a capital letter, a dot,
    all the white space that follows (line feeds included), and the rest of
    the line reached then. *)
Definition area_header (s : list ascii) : option found :=
  t ← after_prefix (chars "Area ") s;
  match t with
  | d :: l :: dot :: t' =>
      if is_digit d && is_upper l && bool_decide (dot = "."%char) then
        let gap := take_while is_space t' in
        let name := take_while not_newline (drop_while is_space t') in
        Some ([[d]; [l]; name], 8 + length gap + length name)
      else None
  | _ => None
  end.

(** The pattern of line 17 read once from left to right. *)
Definition level_header (s : list ascii) : option found :=
  t ← after_prefix (chars "Level") s;
  let gap1 := take_while is_space t in
  let t1 := drop_while is_space t in
  let digits := take_while is_digit t1 in
  let t2 := drop_while is_digit t1 in
  let gap2 := take_while is_space t2 in
  match digits, drop_while is_space t2 with
  | _ :: _, dot :: t3 =>
      if bool_decide (dot = "."%char) then
        let gap3 := take_while is_space t3 in
        let title := take_while not_newline (drop_while is_space t3) in
        Some ([digits; title],
              5 + length gap1 + length digits + length gap2 + 1 + length gap3 + length title)
      else None
  | _, _ => None
  end.

(** The least number of characters that a match of a pattern consumes: one
    for each atom but the starred ones. *)
Definition min_length (re : regex) : nat :=
  sum_list ((λ ca : bool * atom, match ca.2 with Star _ => 0 | _ => 1 end) <$> re).

(** A match object moved [k] characters to the right. *)
Definition shift (k : nat) (m : rmatch) : rmatch :=
  {| m_start := k + m_start m; m_end := k + m_end m; m_groups := m_groups m |}.

(** Lines 75-90: the tree that the main block prints, the parsed tree with
    the names of the table. *)
Definition main_data (max_str_digits : nat) (content : list ascii) : option (list Axis) :=
  data ← parse_drd_content max_str_digits content;
  enrich_names axis_names data.

(** ** Properties of the matcher *)

Lemma greedy_Some p k s w r :
  greedy p k s = Some (w, r) →
  ∃ s', s = w ++ s' ∧ k s' = Some r ∧ Forall (λ c, p c = true) w.
Proof.
  revert w r. induction s as [|c s IH]; intros w r; simpl.
  - destruct (k []) eqn:Hk; intros [= <- <-]. by exists [].
  - destruct (p c) eqn:Hp.
    + destruct (greedy p k s) as [[w' r']|] eqn:Hg.
      * intros [= <- <-]. destruct (IH _ _ eq_refl) as (s' & -> & ? & ?).
        exists s'. split_and!; [done..|]. by constructor.
      * destruct (k (c :: s)) eqn:Hk; intros [= <- <-]. by exists (c :: s).
    + destruct (k (c :: s)) eqn:Hk; intros [= <- <-]. by exists (c :: s).
Qed.

Lemma match_here_Some re s gs n :
  match_here re s = Some (gs, n) →
  n ≤ length s ∧ Forall2 group_ok (captures re) gs.
Proof.
  revert s gs n. induction re as [|[cap a] re IH]; intros s gs n; simpl.
  { intros [= <- <-]. split; [lia|constructor]. }
  destruct a as [x|p|p|p].
  - destruct s as [|c s]; [done|]. case_decide; [subst c|done].
    destruct (match_here re s) as [[gs' n']|] eqn:Hm; intros [= <- <-].
    destruct (IH _ _ _ Hm). split; [simpl; lia|].
    unfold captures; destruct cap; simpl; [by constructor|done].
  - destruct s as [|c s]; [done|]. destruct (p c) eqn:Hp; [|done].
    destruct (match_here re s) as [[gs' n']|] eqn:Hm; intros [= <- <-].
    destruct (IH _ _ _ Hm). split; [simpl; lia|].
    unfold captures; destruct cap; simpl; [constructor; [by exists c|done]|done].
  - destruct (greedy p (match_here re) s) as [[w [gs' n']]|] eqn:Hg; intros [= <- <-].
    apply greedy_Some in Hg as (s' & -> & Hm & Hw).
    destruct (IH _ _ _ Hm). split; [rewrite length_app; simpl; lia|].
    unfold captures; destruct cap; simpl; [by constructor|done].
  - destruct s as [|c s]; [done|]. destruct (p c) eqn:Hp; [|done].
    destruct (greedy p (match_here re) s) as [[w [gs' n']]|] eqn:Hg; intros [= <- <-].
    apply greedy_Some in Hg as (s' & -> & Hm & Hw).
    destruct (IH _ _ _ Hm). split; [simpl; rewrite length_app; simpl; lia|].
    unfold captures; destruct cap; simpl; [|done].
    constructor; [|done]. split; [done|by constructor].
Qed.

(** ** Properties of the scan *)

Lemma placed_weaken lo lo' hi hi' ms :
  lo' ≤ lo → hi ≤ hi' → placed lo hi ms → placed lo' hi' ms.
Proof.
  revert lo lo'. induction ms as [|m ms IH]; simpl; [done|].
  intros lo lo' ? ? (? & ? & ? & ?). split_and!; [lia..|]. by apply (IH (m_end m)).
Qed.

Section scan.
Context (re : regex).

Lemma scan_placed pos skip s :
  placed (pos + skip) (pos + length s) (scan re pos skip s).
Proof.
  revert pos skip. induction s as [|c s IH]; intros pos skip.
  - destruct skip as [|k]; simpl; [|done].
    destruct (match_here re []) as [[gs n]|] eqn:Hm; simpl; [|done].
    apply match_here_Some in Hm as [Hn _]. simpl in Hn. lia.
  - destruct skip as [|k]; simpl.
    + destruct (match_here re (c :: s)) as [[gs n]|] eqn:Hm; simpl.
      * apply match_here_Some in Hm as [Hn _]. simpl in Hn.
        split_and!; [lia..|].
        eapply placed_weaken; [| |apply IH]; lia.
      * eapply placed_weaken; [| |apply IH]; lia.
    + eapply placed_weaken; [| |apply IH]; lia.
Qed.

Lemma finditer_placed s : placed 0 (length s) (finditer re s).
Proof. apply (scan_placed 0 0 s). Qed.

(** Every match object of the scan carries what [match_here] returned. *)
Lemma scan_groups pos skip s m :
  m ∈ scan re pos skip s →
  ∃ t, match_here re t = Some (m_groups m, m_end m - m_start m).
Proof.
  revert pos skip. induction s as [|c s IH]; intros pos skip.
  - destruct skip as [|k]; simpl; [|by intros ?%elem_of_nil].
    destruct (match_here re []) as [[gs n]|] eqn:Hm; [|by intros ?%elem_of_nil].
    intros ->%list_elem_of_singleton. exists []. simpl.
    by replace (pos + n - pos) with n by lia.
  - destruct skip as [|k]; simpl; [|by apply IH].
    destruct (match_here re (c :: s)) as [[gs n]|] eqn:Hm; [|by apply IH].
    intros [->|?]%elem_of_cons; [|by eapply IH].
    exists (c :: s). simpl. by replace (pos + n - pos) with n by lia.
Qed.
End scan.

Lemma placed_lookup lo hi ms i m :
  placed lo hi ms → ms !! i = Some m →
  lo ≤ m_start m ∧ m_start m ≤ m_end m ∧ m_end m ≤ hi ∧
  match ms !! (i + 1) with
  | Some next => m_end m ≤ m_start next ∧ m_start next ≤ hi
  | None => True
  end.
Proof.
  revert lo i. induction ms as [|m0 ms IH]; intros lo i; [done|].
  simpl. intros (? & ? & ? & Hp). destruct i as [|i]; simpl.
  - intros [= ->]. split_and!; [done..|].
    destruct ms as [|m1 ms]; simpl in *; [done|lia].
  - intros Hi. destruct (IH _ _ Hp Hi) as (? & ? & ? & ?).
    split_and!; [lia|done..].
Qed.

(** ** Slices and spans *)

Lemma length_slice s a b : a ≤ b → b ≤ length s → length (slice s a b) = b - a.
Proof. intros. unfold slice. rewrite length_take, length_drop. lia. Qed.

Lemma lookup_slice s a b k : k < b - a → slice s a b !! k = s !! (a + k).
Proof. intros. unfold slice. by rewrite lookup_take_lt, lookup_drop. Qed.

Lemma slice_drop s a b : a ≤ b → slice s a b ++ drop b s = drop a s.
Proof.
  intros. unfold slice. replace (drop b s) with (drop (b - a) (drop a s)).
  - apply take_drop.
  - rewrite drop_drop. f_equal. lia.
Qed.

Lemma slice_to_end s a : slice s a (length s) = drop a s.
Proof. unfold slice. apply take_ge. rewrite length_drop. lia. Qed.

Lemma span_end_bounds lo buffer ms i m :
  placed lo (length buffer) ms → ms !! i = Some m →
  m_end m ≤ span_end buffer ms i ∧ span_end buffer ms i ≤ length buffer.
Proof.
  intros Hp Hi. destruct (placed_lookup _ _ _ _ _ Hp Hi) as (_ & _ & ? & Hn).
  unfold span_end. destruct (ms !! (i + 1)); lia.
Qed.

Lemma tiling_from buffer lo ms pre :
  placed lo (length buffer) ms →
  concat (imap (λ i m, header_text buffer m ++
                       span_text buffer (pre ++ ms) (length pre + i) m) ms)
  = match ms with [] => [] | m0 :: _ => drop (m_start m0) buffer end.
Proof.
  revert lo pre. induction ms as [|m ms IH]; intros lo pre; [done|].
  simpl. intros (_ & Hse & Hhi & Hp).
  rewrite (imap_ext _ (λ i m', header_text buffer m' ++
      span_text buffer ((pre ++ [m]) ++ ms) (length (pre ++ [m]) + i) m')).
  2:{ intros i x _. simpl. rewrite <- (assoc_L (++)), length_app. simpl.
      do 2 f_equal. lia. }
  rewrite (IH _ _ Hp). unfold span_text at 1, span_end, header_text.
  replace ((pre ++ m :: ms) !! (length pre + 0 + 1)) with (ms !! 0).
  2:{ rewrite lookup_app_r by lia.
      by replace (length pre + 0 + 1 - length pre) with 1 by lia. }
  rewrite <- (assoc_L (++)). destruct ms as [|m1 ms]; simpl.
  - rewrite app_nil_r, slice_to_end. by apply slice_drop.
  - destruct Hp as (? & _). by rewrite !slice_drop.
Qed.

Lemma headers_and_spans_tile re buffer :
  concat (headers_and_spans re buffer)
  = match finditer re buffer with [] => [] | m0 :: _ => drop (m_start m0) buffer end.
Proof.
  unfold headers_and_spans.
  apply (tiling_from buffer 0 (finditer re buffer) []), finditer_placed.
Qed.

(** ** Character classes *)

Lemma linebreak_is_space c : is_linebreak c = true → is_space c = true.
Proof.
  unfold is_linebreak, is_space. generalize (ord c); intros n.
  rewrite !orb_true_iff, !andb_true_iff, !Nat.leb_le, !Nat.eqb_eq. lia.
Qed.

Lemma not_space_not_linebreak c : is_space c = false → is_linebreak c = false.
Proof.
  intros Hs. destruct (is_linebreak c) eqn:Hl; [|done].
  apply linebreak_is_space in Hl. congruence.
Qed.

(** ** Stripping *)

Lemma lstrip_head s c : head (lstrip s) = Some c → is_space c = false.
Proof.
  induction s as [|x s IH]; simpl; [done|].
  destruct (is_space x) eqn:Hx; [done|]. simpl. by intros [= <-].
Qed.

Lemma lstrip_last s c : last (lstrip s) = Some c → last s = Some c.
Proof.
  induction s as [|x s IH]; simpl; [done|].
  destruct (is_space x) eqn:Hx; [|done].
  intros Hl. rewrite last_cons, (IH Hl). done.
Qed.

Lemma lstrip_id s : (∀ c, head s = Some c → is_space c = false) → lstrip s = s.
Proof. destruct s as [|x s]; simpl; [done|]. intros H. by rewrite (H x). Qed.

Lemma rstrip_last s c : last (rstrip s) = Some c → is_space c = false.
Proof. unfold rstrip. rewrite last_reverse. apply lstrip_head. Qed.

Lemma rstrip_head s c : head (rstrip s) = Some c → head s = Some c.
Proof.
  unfold rstrip. rewrite head_reverse. intros H%lstrip_last.
  by rewrite last_reverse in H.
Qed.

Lemma rstrip_id s : (∀ c, last s = Some c → is_space c = false) → rstrip s = s.
Proof.
  intros H. unfold rstrip. rewrite lstrip_id, reverse_involutive; [done|].
  intros c. rewrite head_reverse. apply H.
Qed.

Lemma strip_trimmed s : trimmed (strip s).
Proof.
  split; intros c Hc.
  - apply rstrip_head in Hc. by apply lstrip_head in Hc.
  - by apply rstrip_last in Hc.
Qed.

Lemma strip_id s : trimmed s → strip s = s.
Proof. intros [Hh Hl]. unfold strip. rewrite (lstrip_id _ Hh). by apply rstrip_id. Qed.

(** ** Collapsing white space *)

Lemma sub_spaces_elem b s c :
  c ∈ sub_spaces b s → c = space ∨ (c ∈ s ∧ is_space c = false).
Proof.
  revert b. induction s as [|x s IH]; intros b; simpl; [by intros ?%elem_of_nil|].
  destruct (is_space x) eqn:Hx.
  - destruct b.
    + intros [?|[? ?]]%IH; [by left|right; split; [by right|done]].
    + intros [->|[?|[? ?]]%IH]%elem_of_cons; [by left|by left|].
      right; split; [by right|done].
  - intros [->|[?|[? ?]]%IH]%elem_of_cons; [right; split; [by left|done]|by left|].
    right; split; [by right|done].
Qed.

Lemma sub_spaces_single b s :
  single_spaced (sub_spaces b s) = true ∧
  (b = true → ∀ c, head (sub_spaces b s) = Some c → is_space c = false).
Proof.
  revert b. induction s as [|x s IH]; intros b; simpl; [done|].
  destruct (is_space x) eqn:Hx.
  - destruct b; [apply IH|]. split; [|done].
    destruct (IH true) as [Hs Hh]. simpl. rewrite Hs, andb_true_r.
    destruct (sub_spaces true s) as [|y t] eqn:Ht; [done|].
    simpl in Hh. by rewrite (Hh eq_refl y eq_refl).
  - split; [|simpl; by intros _ c [= <-]].
    destruct (IH false) as [Hs _]. simpl. rewrite Hs, andb_true_r, Hx.
    by destruct (sub_spaces false s).
Qed.

Lemma sub_spaces_snoc b s c :
  is_space c = false → sub_spaces b (s ++ [c]) = sub_spaces b s ++ [c].
Proof.
  intros Hc. revert b. induction s as [|x s IH]; intros b; simpl.
  - by rewrite Hc.
  - destruct (is_space x); [destruct b|]; by rewrite IH.
Qed.

Lemma re_sub_spaces_trimmed s : trimmed s → trimmed (re_sub_spaces s).
Proof.
  intros [Hh Hl]. unfold re_sub_spaces. split.
  - destruct s as [|x s]; simpl; [done|].
    pose proof (Hh x eq_refl) as Hx. rewrite Hx. simpl. by intros c [= <-].
  - destruct (last s) as [x|] eqn:Hx.
    + apply last_Some in Hx as [s' ->]. pose proof (Hl x eq_refl) as Hsp.
      rewrite (sub_spaces_snoc _ _ _ Hsp), last_snoc. by intros c [= <-].
    + apply last_None in Hx as ->. done.
Qed.

Lemma single_spaced_no_run d : single_spaced d = true → no_space_run d.
Proof.
  intros Hd i. revert d Hd. induction i as [|i IH]; intros [|x [|y d]] Hd c c'; try done.
  - simpl in *. intros [= <-] [= <-] Hx.
    apply andb_true_iff in Hd as [Hd _]. rewrite Hx in Hd.
    by destruct (is_space y).
  - change ((x :: y :: d) !! S i) with ((y :: d) !! i).
    change ((x :: y :: d) !! (S i + 1)) with ((y :: d) !! (i + 1)).
    apply IH. by apply andb_true_iff in Hd as [_ Hd].
Qed.

Lemma sub_spaces_id b d :
  (∀ c, c ∈ d → is_space c = true → c = space) →
  single_spaced d = true →
  (b = true → ∀ c, head d = Some c → is_space c = false) →
  sub_spaces b d = d.
Proof.
  revert b. induction d as [|x d IH]; intros b Hsp Hss Hh; simpl; [done|].
  simpl in Hss. apply andb_true_iff in Hss as [Hxy Hss].
  assert (∀ c, c ∈ d → is_space c = true → c = space) as Hsp'.
  { intros c ?. apply Hsp. by right. }
  destruct (is_space x) eqn:Hx.
  - destruct b; [by rewrite (Hh eq_refl x eq_refl) in Hx|].
    rewrite (Hsp x) by (done || by left). f_equal. apply IH; [done..|].
    intros _ c Hc. destruct d as [|y d]; simplify_eq/=.
    by destruct (is_space c).
  - f_equal. by apply IH.
Qed.

(** ** Normalized descriptions *)

Lemma normalize_description_tidy text : tidy (normalize_description text).
Proof.
  unfold normalize_description, re_sub_spaces. split_and!.
  - intros c [->|[_ Hc]]%sub_spaces_elem; [done|congruence].
  - apply sub_spaces_single.
  - apply re_sub_spaces_trimmed, strip_trimmed.
Qed.

Lemma replace_newline_id d :
  (∀ c, c ∈ d → is_space c = true → c = space) → replace newline space d = d.
Proof.
  intros Hsp. unfold replace. induction d as [|x d IH]; [done|].
  rewrite fmap_cons, IH by (intros c ?; apply Hsp; by right). f_equal.
  case_decide as Hx; [|done]. subst x.
  by specialize (Hsp newline (list_elem_of_here _ _) eq_refl).
Qed.

Lemma tidy_normalize_id d : tidy d → normalize_description d = d.
Proof.
  intros (Hsp & Hss & Htr). unfold normalize_description, re_sub_spaces.
  rewrite replace_newline_id, strip_id by done. by apply sub_spaces_id.
Qed.

Lemma tidy_no_linebreak d : tidy d → no_linebreak d.
Proof.
  intros (Hsp & _ & _) c Hc. destruct (is_space c) eqn:Hs.
  - by rewrite (Hsp c Hc Hs).
  - by apply not_space_not_linebreak.
Qed.

(** ** The order of trimming and collapsing *)

Lemma lstrip_sub_spaces b s : lstrip (sub_spaces b s) = sub_spaces false (lstrip s).
Proof.
  revert b. induction s as [|c s IH]; intros b; simpl; [done|].
  destruct (is_space c) eqn:Hc.
  - destruct b; [apply IH|]. simpl. apply IH.
  - simpl. by rewrite Hc.
Qed.

Lemma rstrip_snoc s c : rstrip (s ++ [c]) = if is_space c then rstrip s else s ++ [c].
Proof.
  unfold rstrip. rewrite reverse_snoc. simpl. destruct (is_space c); [done|].
  by rewrite reverse_cons, reverse_involutive.
Qed.

Lemma sub_spaces_snoc_space b s c :
  is_space c = true →
  sub_spaces b (s ++ [c]) = sub_spaces b s ∨
  sub_spaces b (s ++ [c]) = sub_spaces b s ++ [space].
Proof.
  intros Hc. revert b. induction s as [|x s IH]; intros b; simpl.
  - rewrite Hc. destruct b; [by left|by right].
  - destruct (is_space x); [destruct b|].
    + apply IH.
    + destruct (IH true) as [->| ->]; [by left|by right].
    + destruct (IH false) as [->| ->]; [by left|by right].
Qed.

Lemma rstrip_sub_spaces b s : rstrip (sub_spaces b s) = sub_spaces b (rstrip s).
Proof.
  induction s as [|c s IH] using rev_ind; [done|].
  rewrite rstrip_snoc. destruct (is_space c) eqn:Hc.
  - destruct (sub_spaces_snoc_space b s c Hc) as [-> | ->]; [done|].
    by rewrite rstrip_snoc.
  - by rewrite sub_spaces_snoc, rstrip_snoc, Hc.
Qed.

Lemma strip_re_sub_spaces s : strip (re_sub_spaces s) = re_sub_spaces (strip s).
Proof.
  unfold strip, re_sub_spaces. by rewrite lstrip_sub_spaces, rstrip_sub_spaces.
Qed.

(** Collapsing before trimming, as the specification words it, computes what
    lines 45 and 47 compute. *)
Lemma normalize_description_spec_eq text :
  normalize_description_spec text = normalize_description text.
Proof. apply strip_re_sub_spaces. Qed.

(** ** What the two patterns capture *)

Lemma captures_area_pattern :
  captures area_pattern = [Cls is_digit; Cls is_upper; Star not_newline].
Proof. reflexivity. Qed.

Lemma captures_level_pattern :
  captures level_pattern = [Plus is_digit; Star not_newline].
Proof. reflexivity. Qed.

Lemma area_match_groups s m :
  m ∈ finditer area_pattern s →
  ∃ d l rest, m_groups m = [[d]; [l]; rest] ∧ is_digit d = true ∧ is_upper l = true.
Proof.
  intros [t Ht]%scan_groups. apply match_here_Some in Ht as [_ Hg].
  rewrite captures_area_pattern in Hg.
  apply Forall2_cons_inv_l in Hg as (g1 & gs1 & (d & -> & Hd) & Hg & ->).
  apply Forall2_cons_inv_l in Hg as (g2 & gs2 & (l & -> & Hl) & Hg & ->).
  apply Forall2_cons_inv_l in Hg as (g3 & gs3 & _ & Hg & ->).
  apply Forall2_nil_inv_l in Hg as ->. by exists d, l, g3.
Qed.

Lemma level_match_groups s m :
  m ∈ finditer level_pattern s →
  ∃ ds rest, m_groups m = [ds; rest] ∧ ds ≠ [] ∧ Forall (λ c, is_digit c = true) ds.
Proof.
  intros [t Ht]%scan_groups. apply match_here_Some in Ht as [_ Hg].
  rewrite captures_level_pattern in Hg.
  apply Forall2_cons_inv_l in Hg as (g1 & gs1 & (Hne & Hd) & Hg & ->).
  apply Forall2_cons_inv_l in Hg as (g2 & gs2 & _ & Hg & ->).
  apply Forall2_nil_inv_l in Hg as ->. by exists g1, g2.
Qed.

(** ** Conversion to integers *)

Lemma cap_test cap n :
  (cap =? 0) || (n <=? cap) = true ↔ cap = 0 ∨ n ≤ cap.
Proof. rewrite orb_true_iff, Nat.eqb_eq, Nat.leb_le. done. Qed.

Lemma int_digits cap ds :
  ds ≠ [] → Forall (λ c, is_digit c = true) ds → cap = 0 ∨ length ds ≤ cap →
  int cap ds = Some (digits_value ds).
Proof.
  intros Hne Hd Hcap. assert (forallb is_digit ds = true) as Hb.
  { clear Hne Hcap. induction Hd as [|x l Hx _ IH]; simpl; [done|]. by rewrite Hx. }
  apply cap_test in Hcap. unfold int. destruct ds; [done|]. by rewrite Hb, Hcap.
Qed.

Lemma int_Some cap s n :
  int cap s = Some n → n = digits_value s ∧ (cap = 0 ∨ length s ≤ cap).
Proof.
  unfold int. destruct s as [|c s]; [done|].
  destruct (forallb is_digit (c :: s)); [|done].
  destruct ((cap =? 0) || (length (c :: s) <=? cap)) eqn:Hcap; [|done].
  apply cap_test in Hcap. by intros [= <-].
Qed.

(** ** The loops in closed form *)

Lemma for_enumerate_fold {St A B} (body : St → nat → A → option St)
    (f : nat → A → B) (h : St → B → St) i l st :
  (∀ st j x, l !! j = Some x → body st (i + j) x = Some (h st (f (i + j) x))) →
  for_enumerate body i l st = Some (foldl h st (imap (λ j, f (i + j)) l)).
Proof.
  revert i st. induction l as [|x l IH]; intros i st Hb; simpl; [done|].
  pose proof (Hb st 0 x eq_refl) as H0. rewrite Nat.add_0_r in H0. rewrite H0. simpl.
  rewrite Nat.add_0_r. rewrite (IH (S i)).
  - do 2 f_equal. apply imap_ext. intros j y _. simpl. f_equal. lia.
  - intros st' j y Hj. replace (S i + j) with (i + S j) by lia. by apply Hb.
Qed.

Lemma for_enumerate_inv {St A B} (body : St → nat → A → option St)
    (f : nat → A → B) (h : St → B → St) (P : nat → A → Prop) i l st res :
  (∀ st j x st', body st j x = Some st' → st' = h st (f j x) ∧ P j x) →
  for_enumerate body i l st = Some res →
  res = foldl h st (imap (λ j, f (i + j)) l) ∧
  ∀ j x, l !! j = Some x → P (i + j) x.
Proof.
  intros Hb. revert i st. induction l as [|x l IH]; intros i st; simpl.
  { intros [= <-]. done. }
  destruct (body st i x) as [st'|] eqn:Hst; [|done]. simpl.
  destruct (Hb _ _ _ _ Hst) as [-> HP]. intros [-> HPl]%IH. split.
  - rewrite Nat.add_0_r. f_equal. apply imap_ext. intros j y _. simpl. f_equal. lia.
  - intros [|j] y Hj.
    + injection Hj as <-. by rewrite Nat.add_0_r.
    + replace (i + S j) with (S i + j) by lia. by apply HPl.
Qed.

Lemma foldl_snoc_app {A} (st es : list A) : foldl (λ st e, st ++ [e]) st es = st ++ es.
Proof.
  revert st. induction es as [|e es IH]; intros st; simpl; [by rewrite app_nil_r|].
  by rewrite IH, <- (assoc_L (++)).
Qed.

Section interpreter_props.
Context (cap : nat).

Lemma level_step_Some area_text level_matches levels j l_match :
  l_match ∈ finditer level_pattern area_text →
  cap = 0 ∨ length (group_text l_match 1) ≤ cap →
  level_step cap area_text level_matches levels j l_match
  = Some (levels ++ [level_of area_text level_matches j l_match]).
Proof.
  intros (ds & rest & Hg & Hne & Hd)%level_match_groups.
  unfold level_step, level_of, group_text, group. rewrite Hg. simpl.
  intros Hcap. by rewrite (int_digits cap ds Hne Hd Hcap).
Qed.

Lemma level_step_inv area_text level_matches levels j l_match levels' :
  level_step cap area_text level_matches levels j l_match = Some levels' →
  levels' = levels ++ [level_of area_text level_matches j l_match] ∧
  (cap = 0 ∨ length (group_text l_match 1) ≤ cap).
Proof.
  unfold level_step, level_of, group_text.
  destruct (group l_match 1) as [g1|]; [|done]. simpl.
  destruct (int cap g1) as [n|] eqn:Hn; [|done]. simpl.
  destruct (group l_match 2) as [g2|]; [|done]. simpl.
  apply int_Some in Hn as [-> Hcap]. by intros [= <-].
Qed.

Lemma parse_levels_Some area_text :
  levels_convertible cap area_text →
  parse_levels cap area_text = Some (levels_of area_text).
Proof.
  intros Hcap. unfold parse_levels, levels_of.
  rewrite (for_enumerate_fold _ (level_of area_text (finditer level_pattern area_text))
             (λ st e, st ++ [e])).
  - by rewrite foldl_snoc_app.
  - intros st j x Hj. apply level_step_Some; [by eapply list_elem_of_lookup_2|].
    by apply (Hcap j).
Qed.

Lemma parse_levels_inv area_text levels :
  parse_levels cap area_text = Some levels →
  levels = levels_of area_text ∧ levels_convertible cap area_text.
Proof.
  unfold parse_levels, levels_of. intros H.
  apply (for_enumerate_inv _ (level_of area_text (finditer level_pattern area_text))
           (λ st e, st ++ [e])
           (λ _ l_match, cap = 0 ∨ length (group_text l_match 1) ≤ cap)) in H.
  - destruct H as [-> Hcap]. by rewrite foldl_snoc_app.
  - intros st j x st'. apply level_step_inv.
Qed.

Lemma area_step_Some content area_matches drd_data i m :
  m ∈ finditer area_pattern content →
  levels_convertible cap (span_text content area_matches i m) →
  area_step cap content area_matches drd_data i m
  = Some (add_area drd_data (axis_num_of m) (area_of content area_matches i m)).
Proof.
  intros (d & l & rest & Hg & Hd & Hl)%area_match_groups Hcap.
  unfold area_step, area_of, axis_num_of, group_text, group. rewrite Hg. simpl.
  rewrite Hd, (parse_levels_Some _ Hcap). by destruct cap.
Qed.

Lemma area_step_inv content area_matches drd_data i m drd_data' :
  area_step cap content area_matches drd_data i m = Some drd_data' →
  drd_data' = add_area drd_data (axis_num_of m) (area_of content area_matches i m) ∧
  levels_convertible cap (span_text content area_matches i m).
Proof.
  unfold area_step, area_of, axis_num_of, group_text.
  destruct (group m 1) as [g1|]; [|done]. simpl.
  destruct (int cap g1) as [n|] eqn:Hn; [|done]. simpl.
  destruct (group m 2) as [g2|]; [|done]. simpl.
  destruct (group m 3) as [g3|]; [|done]. simpl.
  destruct (parse_levels cap _) as [levels|] eqn:Hlv; [|done]. simpl.
  apply int_Some in Hn as [-> _]. apply parse_levels_inv in Hlv as [-> Hcap].
  by intros [= <-].
Qed.

(** The parser returns the assembled tree when the Level numbers are within
    the cap, and fails otherwise. *)
Lemma parse_drd_content_Some content :
  within_cap cap content →
  parse_drd_content cap content = Some (assemble (contributions content)).
Proof.
  intros Hcap. unfold parse_drd_content, assemble, contributions.
  apply (for_enumerate_fold _
           (λ i m, (axis_num_of m, area_of content (finditer area_pattern content) i m))
           (λ drd_data p, add_area drd_data p.1 p.2)).
  intros st j x Hj. apply area_step_Some; [by eapply list_elem_of_lookup_2|].
  by apply Hcap.
Qed.

Lemma parse_drd_content_inv content res :
  parse_drd_content cap content = Some res →
  res = assemble (contributions content) ∧ within_cap cap content.
Proof.
  unfold parse_drd_content, assemble, contributions, within_cap. intros H.
  apply (for_enumerate_inv _
           (λ i m, (axis_num_of m, area_of content (finditer area_pattern content) i m))
           (λ drd_data p, add_area drd_data p.1 p.2)
           (λ i m, levels_convertible cap
                     (span_text content (finditer area_pattern content) i m))) in H.
  - done.
  - intros st j x st'. apply area_step_inv.
Qed.

Lemma parse_drd_content_is_Some content :
  is_Some (parse_drd_content cap content) ↔ within_cap cap content.
Proof.
  split.
  - intros [res Hres]. by apply parse_drd_content_inv in Hres as [_ ?].
  - intros Hcap. by rewrite parse_drd_content_Some.
Qed.

End interpreter_props.

(** Without a cap the parser returns on every buffer. *)
Lemma parse_drd_content_no_cap content :
  parse_drd_content 0 content = Some (assemble (contributions content)).
Proof. apply parse_drd_content_Some. intros i m _ j lm _. by left. Qed.

(** A buffer parsed under the cap 1 is parsed alike under every cap. *)
Lemma parse_drd_content_any_cap cap content res :
  parse_drd_content 1 content = Some res → parse_drd_content cap content = Some res.
Proof.
  intros [-> Hcap]%parse_drd_content_inv. apply parse_drd_content_Some.
  intros i m Hi j lm Hj. destruct (Hcap i m Hi j lm Hj) as [?|?]; [done|].
  destruct cap; [by left|right; lia].
Qed.

(** ** First occurrences *)

Lemma elem_of_first_seen l n : n ∈ first_seen l ↔ n ∈ l.
Proof.
  induction l as [|x l IH]; simpl; [done|].
  rewrite !elem_of_cons, list_elem_of_filter, IH.
  destruct (decide (n = x)); tauto.
Qed.

Lemma NoDup_first_seen l : NoDup (first_seen l).
Proof.
  induction l as [|x l IH]; simpl; [constructor|].
  constructor; [|by apply NoDup_filter].
  rewrite list_elem_of_filter. tauto.
Qed.

Lemma first_seen_snoc l n :
  first_seen (l ++ [n]) = if decide (n ∈ l) then first_seen l else first_seen l ++ [n].
Proof.
  induction l as [|x l IH]; simpl; [done|]. rewrite IH.
  destruct (decide (n ∈ l)) as [Hl|Hl].
  - rewrite decide_True by (by right). done.
  - rewrite filter_app. destruct (decide (n = x)) as [->|Hx].
    + rewrite decide_True by (by left). rewrite filter_cons_False by tauto.
      by rewrite app_nil_r.
    + rewrite decide_False by (rewrite elem_of_cons; tauto).
      by rewrite filter_cons_True by done.
Qed.

Lemma length_first_seen l : length (first_seen l) = length (remove_dups l).
Proof.
  apply Permutation_length, NoDup_Permutation.
  - apply NoDup_first_seen.
  - apply NoDup_remove_dups.
  - intros n. by rewrite elem_of_first_seen, elem_of_remove_dups.
Qed.

(** The order of [first_seen] is that of the first occurrences. *)
Lemma first_seen_order l i j a b :
  first_seen l !! i = Some a → first_seen l !! j = Some b → i < j →
  ∃ k, l !! k = Some a ∧ b ∉ take (S k) l.
Proof.
  revert i j. induction l as [|x l IH] using rev_ind; intros i j; [done|].
  rewrite first_seen_snoc. destruct (decide (x ∈ l)) as [Hx|Hx].
  - intros Hi Hj Hij. destruct (IH _ _ Hi Hj Hij) as (k & Hk & Hb).
    exists k. pose proof (lookup_lt_Some _ _ _ Hk).
    rewrite lookup_app_l, take_app_le by lia. done.
  - intros Hi Hj Hij.
    assert (i < length (first_seen l)) as Hlt.
    { apply lookup_lt_Some in Hj. rewrite length_app in Hj. simpl in Hj. lia. }
    rewrite lookup_app_l in Hi by done.
    destruct (decide (j < length (first_seen l))) as [Hjl|Hjl].
    + rewrite lookup_app_l in Hj by done.
      destruct (IH _ _ Hi Hj Hij) as (k & Hk & Hb).
      exists k. pose proof (lookup_lt_Some _ _ _ Hk).
      rewrite lookup_app_l, take_app_le by lia. done.
    + rewrite lookup_app_r in Hj by lia.
      apply list_lookup_singleton_Some in Hj as [_ <-].
      assert (a ∈ l) as [k Hk]%list_elem_of_lookup_1.
      { apply elem_of_first_seen. by eapply list_elem_of_lookup_2. }
      exists k. pose proof (lookup_lt_Some _ _ _ Hk).
      rewrite lookup_app_l, take_app_le by lia. split; [done|].
      intros (i' & Hi' & _)%elem_of_take. by apply Hx, (list_elem_of_lookup_2 _ i').
Qed.

(** ** The assembled tree *)

Lemma axis_for_snoc_ne l n a n' : n' ≠ n → axis_for (l ++ [(n, a)]) n' = axis_for l n'.
Proof.
  intros Hn. unfold axis_for. rewrite filter_app, filter_cons_False by (simpl; congruence).
  by rewrite filter_nil, app_nil_r.
Qed.

Lemma axis_for_snoc_eq l n a :
  axis_for (l ++ [(n, a)]) n
  = {| axis_id := n; axis_name := axis_name (axis_for l n);
       areas := areas (axis_for l n) ++ [a] |}.
Proof.
  unfold axis_for. rewrite filter_app, filter_cons_True by done.
  by rewrite filter_nil, fmap_app.
Qed.

Lemma axis_for_fresh l n : n ∉ l.*1 → areas (axis_for l n) = [].
Proof.
  intros Hn. unfold axis_for. simpl.
  destruct (filter (λ p, p.1 = n) l) as [|p t] eqn:Hf; [done|].
  assert (p ∈ filter (λ p, p.1 = n) l) as [Hp Hl]%list_elem_of_filter
    by (rewrite Hf; by left).
  destruct Hn. rewrite <- Hp. by apply list_elem_of_fmap_2.
Qed.

Lemma add_area_axis_for l n a :
  add_area (axis_for l <$> first_seen l.*1) n a
  = axis_for (l ++ [(n, a)]) <$> first_seen (l ++ [(n, a)]).*1.
Proof.
  rewrite fmap_app. simpl. rewrite first_seen_snoc. unfold add_area.
  destruct (list_find _ _) as [[k x]|] eqn:Hfind.
  - apply list_find_Some in Hfind as (Hk & Hx & _).
    rewrite list_lookup_fmap in Hk.
    destruct (first_seen l.*1 !! k) as [n'|] eqn:Hn'; [|done].
    simpl in Hk. injection Hk as <-. simpl in Hx. subst n'.
    rewrite decide_True
      by (by eapply elem_of_first_seen, list_elem_of_lookup_2).
    apply list_eq. intros j. rewrite !list_lookup_fmap.
    destruct (decide (k = j)) as [<-|Hkj].
    + rewrite list_lookup_alter_eq, list_lookup_fmap, Hn'. simpl.
      by rewrite axis_for_snoc_eq.
    + rewrite list_lookup_alter_ne, list_lookup_fmap by done.
      destruct (first_seen l.*1 !! j) as [n'|] eqn:Hj; [|done]. simpl.
      rewrite axis_for_snoc_ne; [done|]. intros ->.
      by apply Hkj, (NoDup_lookup _ _ _ _ (NoDup_first_seen l.*1) Hn' Hj).
  - apply list_find_None in Hfind.
    assert (n ∉ first_seen l.*1) as Hn.
    { intros Hn. rewrite Forall_forall in Hfind.
      apply (Hfind (axis_for l n)); [by apply list_elem_of_fmap_2|done]. }
    rewrite decide_False by (by rewrite <- elem_of_first_seen).
    rewrite fmap_app. simpl.
    replace (length (axis_for l <$> first_seen l.*1))
      with (length (axis_for l <$> first_seen l.*1) + 0) by lia.
    rewrite alter_app_r. simpl. f_equal.
    + apply list_fmap_ext. intros j n' Hj. rewrite axis_for_snoc_ne; [done|].
      intros ->. by eapply Hn, list_elem_of_lookup_2.
    + rewrite axis_for_snoc_eq, axis_for_fresh; [done|].
      by rewrite <- elem_of_first_seen.
Qed.

Lemma assemble_axis_for l : assemble l = axis_for l <$> first_seen l.*1.
Proof.
  unfold assemble. induction l as [|[n a] l IH] using rev_ind; [done|].
  by rewrite foldl_snoc, IH, add_area_axis_for.
Qed.

(** ** Counting the Areas *)

Lemma area_count_alter a k drd_data x :
  drd_data !! k = Some x →
  area_count (alter (λ x, {| axis_id := axis_id x; axis_name := axis_name x;
                             areas := areas x ++ [a] |}) k drd_data)
  = S (area_count drd_data).
Proof.
  unfold area_count. revert k. induction drd_data as [|y l IH]; intros [|k] Hk; try done.
  - injection Hk as ->. simpl. rewrite !length_app. simpl. lia.
  - change (length (areas y ++ concat (areas <$> alter
       (λ x, {| axis_id := axis_id x; axis_name := axis_name x;
                areas := areas x ++ [a] |}) k l))
            = S (length (areas y ++ concat (areas <$> l)))).
    rewrite !length_app, (IH k Hk). lia.
Qed.

Lemma area_count_add_area drd_data n a :
  area_count (add_area drd_data n a) = S (area_count drd_data).
Proof.
  unfold add_area. destruct (list_find _ _) as [[k x]|] eqn:Hfind.
  - apply list_find_Some in Hfind as (Hk & _). by apply (area_count_alter a k _ x).
  - erewrite area_count_alter.
    + unfold area_count. rewrite fmap_app, concat_app, length_app. simpl. lia.
    + rewrite lookup_app_r by lia. by rewrite Nat.sub_diag.
Qed.

Lemma area_count_assemble l : area_count (assemble l) = length l.
Proof.
  unfold assemble. induction l as [|p l IH] using rev_ind; [done|].
  rewrite foldl_snoc, area_count_add_area, IH, length_app. simpl. lia.
Qed.

Lemma contributions_ids content :
  (contributions content).*1 = axis_num_of <$> finditer area_pattern content.
Proof.
  unfold contributions. rewrite fmap_imap.
  generalize (area_of content (finditer area_pattern content)).
  induction (finditer area_pattern content) as [|m ms IH]; intros f; simpl; [done|].
  f_equal. apply IH.
Qed.

(** ** The name enricher *)

Lemma rename_axis_Some names axis : rename_axis names axis = Some (renamed names axis).
Proof.
  unfold rename_axis, renamed. case_decide as Hn.
  - destruct Hn as [new_name Hn]. rewrite Hn. done.
  - apply eq_None_not_Some in Hn. rewrite Hn. by destruct axis.
Qed.

Lemma enrich_names_total names data :
  enrich_names names data = Some (renamed names <$> data).
Proof.
  unfold enrich_names. apply mapM_Some_2.
  induction data as [|axis data IH]; constructor; [apply rename_axis_Some|done].
Qed.

(** ** The claims *)

(** C1.  Parsing the scenario buffer of the specification yields exactly one
    Axis, with id 1 and the placeholder name, whose Areas are 1A "Processes"
    with the Levels (1, "Basic", "some text") and (2, "Advanced", "more text"),
    and 1B "Other" with the Level (1, "X", "text"), in this order. *)
Theorem scenario_parses (max_str_digits : nat) :
  parse_drd_content max_str_digits scenario = Some [scenario_axis].
Proof. apply parse_drd_content_any_cap. vm_compute. reflexivity. Qed.

(** C2.  For every pattern and buffer (the outer pattern over the content, the
    inner pattern over an Area's text), the span of match [i] is the part of
    the buffer that starts at the end of match [i] and stops at the start of
    match [i+1], or at the end of the buffer when match [i] is the last one. *)
Theorem span_between_headers (re : regex) (buffer : list ascii) (i : nat) (m : rmatch) :
  finditer re buffer !! i = Some m →
  let matches := finditer re buffer in
  ∃ stop,
    match matches !! (i + 1) with
    | Some next => stop = m_start next
    | None => stop = length buffer
    end ∧
    m_end m ≤ stop ∧ stop ≤ length buffer ∧
    span_text buffer matches i m = slice buffer (m_end m) stop ∧
    length (span_text buffer matches i m) = stop - m_end m ∧
    buffer = take (m_end m) buffer ++ span_text buffer matches i m ++ drop stop buffer.
Proof.
  intros Hi matches. exists (span_end buffer matches i).
  destruct (span_end_bounds 0 buffer matches i m (finditer_placed re buffer) Hi) as [Hlo Hhi].
  split_and!; [|done..| | |].
  - unfold span_end. by destruct (matches !! (i + 1)).
  - done.
  - by apply length_slice.
  - unfold span_text. rewrite slice_drop by done. by rewrite take_drop.
Qed.

Lemma span_between_headers_witness :
  ∃ stop, stop = 72 ∧ 18 ≤ stop ∧ stop ≤ length scenario ∧
    span_text scenario (finditer area_pattern scenario) 0
      {| m_start := 0; m_end := 18;
         m_groups := [chars "1"; chars "A"; chars "Processes"] |}
    = slice scenario 18 stop.
Proof.
  destruct (span_between_headers area_pattern scenario 0
              {| m_start := 0; m_end := 18;
                 m_groups := [chars "1"; chars "A"; chars "Processes"] |})
    as (stop & Hstop & Hlo & Hhi & Hspan & _); [vm_compute; reflexivity|].
  exists stop. split_and!; [exact Hstop|exact Hlo|exact Hhi|exact Hspan].
Defined.

(** C3.  The tree has one Axis per distinct axis number among the outer
    matches (no id twice, as many entries as distinct numbers), in the order
    in which the numbers first occur, and every outer match contributes one
    Area, appended to the Axis of its number in encounter order. *)
Theorem axes_deduplicated (max_str_digits : nat) (content : list ascii)
    (res : list Axis) :
  parse_drd_content max_str_digits content = Some res →
  let ids := axis_num_of <$> finditer area_pattern content in
  axis_id <$> res = first_seen ids ∧
  NoDup (axis_id <$> res) ∧
  (∀ n, n ∈ axis_id <$> res ↔ n ∈ ids) ∧
  length res = length (remove_dups ids) ∧
  (∀ i j a b, (axis_id <$> res) !! i = Some a → (axis_id <$> res) !! j = Some b →
     i < j → ∃ k, ids !! k = Some a ∧ b ∉ take (S k) ids) ∧
  (∀ ax, ax ∈ res →
     areas ax = (filter (λ p, p.1 = axis_id ax) (contributions content)).*2) ∧
  area_count res = length (finditer area_pattern content).
Proof.
  intros [-> _]%parse_drd_content_inv ids.
  assert (axis_id <$> assemble (contributions content) = first_seen ids) as Hids.
  { rewrite assemble_axis_for, contributions_ids, <- list_fmap_compose.
    apply list_fmap_id. }
  split_and!.
  - done.
  - rewrite Hids. apply NoDup_first_seen.
  - intros n. rewrite Hids. apply elem_of_first_seen.
  - rewrite <- (length_fmap axis_id), Hids. apply length_first_seen.
  - rewrite Hids. apply first_seen_order.
  - intros ax. rewrite assemble_axis_for. by intros (n & -> & _)%list_elem_of_fmap.
  - rewrite area_count_assemble. unfold contributions. apply length_imap.
Qed.

Lemma axes_deduplicated_witness :
  axis_id <$> [scenario_axis] = [1%Z] ∧ area_count [scenario_axis] = 2.
Proof.
  destruct (axes_deduplicated default_max_str_digits scenario [scenario_axis])
    as (Hids & _ & _ & _ & _ & _ & Hcount); [vm_compute; reflexivity|].
  split; [exact Hids|exact Hcount].
Defined.

(** C4, as stated, fails: in the scenario the spans of the two Area headers
    leave out the text of the second header. *)
Lemma spans_leave_out_headers :
  ∃ m0, head (finditer area_pattern scenario) = Some m0 ∧
    concat (spans area_pattern scenario) ≠ drop (m_end m0) scenario.
Proof.
  eexists. split; [vm_compute; reflexivity|].
  intros H. apply (f_equal length) in H. vm_compute in H. discriminate H.
Qed.

(** C4, amended.  The spans lie one after the other without overlap, each
    between the end of its header and the start of the next header or the end
    of the buffer, and the headers followed by their spans reconstruct the
    buffer from the start of the first match to its end; when there is one
    match only, its span alone is the buffer from the end of the match on. *)
Theorem headers_and_spans_cover (re : regex) (buffer : list ascii) (m0 : rmatch) :
  head (finditer re buffer) = Some m0 →
  let matches := finditer re buffer in
  concat (headers_and_spans re buffer) = drop (m_start m0) buffer ∧
  (matches = [m0] → concat (spans re buffer) = drop (m_end m0) buffer) ∧
  ∀ i m, matches !! i = Some m →
    m_start m ≤ m_end m ∧
    m_end m ≤ span_end buffer matches i ∧
    span_end buffer matches i ≤ length buffer ∧
    length (header_text buffer m) = m_end m - m_start m ∧
    length (span_text buffer matches i m) = span_end buffer matches i - m_end m ∧
    ∀ next, matches !! (i + 1) = Some next → span_end buffer matches i = m_start next.
Proof.
  intros Hm0 matches. split_and!.
  - rewrite headers_and_spans_tile. by destruct (finditer re buffer); simplify_eq/=.
  - intros Hone. unfold spans, matches in *. rewrite Hone. simpl.
    unfold span_text, span_end. simpl. by rewrite app_nil_r, slice_to_end.
  - intros i m Hi.
    destruct (placed_lookup _ _ _ _ _ (finditer_placed re buffer) Hi) as (_ & ? & ? & _).
    destruct (span_end_bounds 0 buffer matches i m (finditer_placed re buffer) Hi).
    split_and!; [done..| | |].
    + apply length_slice; lia.
    + by apply length_slice.
    + intros next Hnext. unfold span_end. by rewrite Hnext.
Qed.

Lemma headers_and_spans_cover_witness :
  concat (headers_and_spans area_pattern scenario) = scenario.
Proof.
  apply (headers_and_spans_cover area_pattern scenario
           {| m_start := 0; m_end := 18;
              m_groups := [chars "1"; chars "A"; chars "Processes"] |}).
  vm_compute; reflexivity.
Defined.

Lemma elem_of_assemble content ax ar :
  ax ∈ assemble (contributions content) → ar ∈ areas ax →
  ∃ i m, finditer area_pattern content !! i = Some m ∧
    axis_id ax = axis_num_of m ∧
    ar = area_of content (finditer area_pattern content) i m.
Proof.
  rewrite assemble_axis_for. intros (n & -> & _)%list_elem_of_fmap.
  intros ([n' a] & -> & [Hn Hp]%list_elem_of_filter)%list_elem_of_fmap.
  apply elem_of_lookup_imap_1 in Hp as (i & m & [= -> ->] & Hi).
  simpl in Hn. by exists i, m.
Qed.

(** C5.  Every description in the tree is free of line breaks, has no two
    white-space characters in a row, and has no white space at either end. *)
Theorem descriptions_normalized (max_str_digits : nat) (content : list ascii)
    (res : list Axis) (ax : Axis) (ar : Area) (lv : Level) :
  parse_drd_content max_str_digits content = Some res →
  ax ∈ res → ar ∈ areas ax → lv ∈ levels ar →
  no_linebreak (description lv) ∧
  no_space_run (description lv) ∧
  trimmed (description lv).
Proof.
  intros [-> _]%parse_drd_content_inv Hax Har Hlv.
  destruct (elem_of_assemble _ _ _ Hax Har) as (i & m & _ & _ & ->).
  apply elem_of_lookup_imap_1 in Hlv as (j & lm & -> & _).
  pose proof (normalize_description_tidy
    (span_text (span_text content (finditer area_pattern content) i m)
       (finditer level_pattern (span_text content (finditer area_pattern content) i m))
       j lm)) as Ht.
  split_and!.
  - by apply tidy_no_linebreak.
  - apply single_spaced_no_run, Ht.
  - apply Ht.
Qed.

Lemma descriptions_normalized_witness :
  no_linebreak (chars "some text") ∧
  no_space_run (chars "some text") ∧
  trimmed (chars "some text").
Proof.
  apply (descriptions_normalized default_max_str_digits scenario [scenario_axis]
           scenario_axis scenario_area_1A
           {| level := 1; title := chars "Basic"; description := chars "some text" |}).
  - vm_compute; reflexivity.
  - apply list_elem_of_here.
  - apply list_elem_of_here.
  - apply list_elem_of_here.
Defined.

(** C6.  Normalizing a description twice gives what normalizing it once
    gives, for the normalization in the order of lines 45 and 47 (replace,
    trim, collapse) and in the order of the specification (replace, collapse,
    trim), which compute the same text. *)
Theorem normalize_description_idempotent (text : list ascii) :
  normalize_description (normalize_description text) = normalize_description text ∧
  normalize_description_spec (normalize_description_spec text)
  = normalize_description_spec text.
Proof.
  rewrite !normalize_description_spec_eq.
  split; apply tidy_normalize_id, normalize_description_tidy.
Qed.

(** C7.  The empty buffer and every buffer without an Area header give the
    empty tree, without failure; and for an Area whose span has no Level
    header the inner loop returns the empty list, the body of the outer loop
    does not fail and adds the Area with no Levels, and the Area is in the
    tree with no Levels. *)
Theorem degenerate_inputs (max_str_digits : nat) (content : list ascii) :
  let area_matches := finditer area_pattern content in
  parse_drd_content max_str_digits [] = Some [] ∧
  (area_matches = [] → parse_drd_content max_str_digits content = Some []) ∧
  (∀ i m, area_matches !! i = Some m →
     let area_text := span_text content area_matches i m in
     finditer level_pattern area_text = [] →
     parse_levels max_str_digits area_text = Some [] ∧
     levels (area_of content area_matches i m) = [] ∧
     (∀ drd_data,
        area_step max_str_digits content area_matches drd_data i m
        = Some (add_area drd_data (axis_num_of m) (area_of content area_matches i m))) ∧
     (∀ res, parse_drd_content max_str_digits content = Some res →
        ∃ ax, ax ∈ res ∧ axis_id ax = axis_num_of m ∧
          area_of content area_matches i m ∈ areas ax)).
Proof.
  intros area_matches. split_and!.
  - reflexivity.
  - intros H. unfold parse_drd_content. fold area_matches. by rewrite H.
  - intros i m Hi area_text Hnone.
    assert (levels_convertible max_str_digits area_text) as Hcap.
    { intros j lm. by rewrite Hnone. }
    split_and!.
    + unfold parse_levels. by rewrite Hnone.
    + simpl. unfold levels_of. fold area_text. by rewrite Hnone.
    + intros drd_data. apply area_step_Some; [|done]. by eapply list_elem_of_lookup_2.
    + intros res [-> _]%parse_drd_content_inv.
      exists (axis_for (contributions content) (axis_num_of m)). split_and!.
      * rewrite assemble_axis_for. apply list_elem_of_fmap_2, elem_of_first_seen.
        rewrite contributions_ids. apply list_elem_of_fmap_2.
        by eapply list_elem_of_lookup_2.
      * done.
      * simpl. apply (list_elem_of_fmap_2' snd _
          (axis_num_of m, area_of content area_matches i m)); [|done].
        apply list_elem_of_filter. split; [done|].
        by apply (elem_of_lookup_imap_2
                    (λ i m, (axis_num_of m, area_of content area_matches i m))).
Qed.

Lemma degenerate_inputs_witness :
  parse_drd_content default_max_str_digits (chars "no header here") = Some [] ∧
  parse_levels default_max_str_digits [] = Some [] ∧
  ∃ ax, ax ∈ [{| axis_id := 3; axis_name := chars "Axis 3";
                  areas := [{| area_id := chars "3C"; area_name := chars "Strategy";
                               levels := [] |}] |}] ∧
    axis_id ax = 3%Z ∧
    {| area_id := chars "3C"; area_name := chars "Strategy"; levels := [] |} ∈ areas ax.
Proof.
  split.
  - apply (degenerate_inputs default_max_str_digits (chars "no header here")).
    vm_compute; reflexivity.
  - destruct (degenerate_inputs default_max_str_digits bare_area) as (_ & _ & Harea).
    destruct (Harea 0 {| m_start := 0; m_end := 17;
                         m_groups := [chars "3"; chars "C"; chars "Strategy"] |})
      as (Hlevels & _ & _ & Hres);
      [vm_compute; reflexivity|vm_compute; reflexivity|].
    split; [exact Hlevels|]. apply Hres. vm_compute; reflexivity.
Defined.

(** C8.  For every list of Axis entries and every table of names, the
    enricher does not fail and returns the entries in the same order, each
    with its id and its Areas unchanged, with the name of the table where the
    id is in the table and its own name otherwise. *)
Theorem enrich_names_frame (names : gmap Z (list ascii)) (data : list Axis) :
  ∃ data',
    enrich_names names data = Some data' ∧
    length data' = length data ∧
    ∀ i axis, data !! i = Some axis →
      ∃ axis',
        data' !! i = Some axis' ∧
        axis_id axis' = axis_id axis ∧
        areas axis' = areas axis ∧
        (∀ new_name, names !! axis_id axis = Some new_name → axis_name axis' = new_name) ∧
        (names !! axis_id axis = None → axis_name axis' = axis_name axis).
Proof.
  exists (renamed names <$> data). split_and!.
  - apply enrich_names_total.
  - apply length_fmap.
  - intros i axis Hi. exists (renamed names axis).
    rewrite list_lookup_fmap, Hi. split_and!; [done..| |].
    + intros new_name Hn. simpl. by rewrite Hn.
    + intros Hn. simpl. by rewrite Hn.
Qed.

Lemma enrich_names_frame_witness :
  ∃ data',
    enrich_names axis_names [scenario_axis] = Some data' ∧
    axis_name <$> data' = [chars "Digital Processes"] ∧
    areas <$> data' = [areas scenario_axis].
Proof.
  destruct (enrich_names_frame axis_names [scenario_axis]) as (data' & Hsome & _ & _).
  exists data'. split; [exact Hsome|].
  vm_compute in Hsome. injection Hsome as <-. split; vm_compute; reflexivity.
Defined.

(** C9, as stated, fails: the table of lines 78-86 does not have 10
    entries. *)
Lemma axis_names_not_ten : size axis_names ≠ 10.
Proof. vm_compute. discriminate. Qed.

(** C9, amended.  The table of names has exactly 7 entries, for the ids 1 to
    7. *)
Theorem axis_names_seven :
  size axis_names = 7 ∧ ∀ n : Z, is_Some (axis_names !! n) ↔ (1 ≤ n ≤ 7)%Z.
Proof.
  split; [vm_compute; reflexivity|]. intros n. rewrite <- elem_of_dom.
  unfold axis_names. rewrite dom_list_to_map_L, elem_of_list_to_set.
  simpl. rewrite !elem_of_cons, elem_of_nil. lia.
Qed.

(** C10.  Every Axis of the tree has at least one Area. *)
Theorem axes_have_areas (max_str_digits : nat) (content : list ascii)
    (res : list Axis) (ax : Axis) :
  parse_drd_content max_str_digits content = Some res → ax ∈ res → areas ax ≠ [].
Proof.
  intros [-> _]%parse_drd_content_inv. rewrite assemble_axis_for.
  intros (n & -> & Hn)%list_elem_of_fmap. rewrite elem_of_first_seen in Hn.
  apply list_elem_of_fmap in Hn as (p & -> & Hp). simpl.
  intros Hnil%fmap_nil_inv.
  by apply (filter_nil_not_elem_of _ _ p) in Hnil.
Qed.

Lemma axes_have_areas_witness : areas scenario_axis ≠ [].
Proof.
  apply (axes_have_areas default_max_str_digits scenario [scenario_axis] scenario_axis).
  - vm_compute; reflexivity.
  - apply list_elem_of_here.
Defined.

(** ** More runs *)

(** Scenario 7 of the specification: two headers of axis 2. *)
Example two_areas_of_one_axis (max_str_digits : nat) :
  parse_drd_content max_str_digits (chars ("Area 2A. One" ++ LF ++ "Area 2B. Two"))
  = Some [{| axis_id := 2; axis_name := chars "Axis 2";
             areas := [{| area_id := chars "2A"; area_name := chars "One"; levels := [] |};
                       {| area_id := chars "2B"; area_name := chars "Two"; levels := [] |}] |}].
Proof. apply parse_drd_content_any_cap. vm_compute. reflexivity. Qed.

(** The axes come in the order of their first header, not sorted. *)
Example axes_in_order_of_first_header (max_str_digits : nat) :
  ∃ res,
    parse_drd_content max_str_digits
      (chars ("Area 2A. x" ++ LF ++ "Area 1A. y" ++ LF ++ "Area 2B. z")) = Some res ∧
    axis_id <$> res = [2; 1]%Z.
Proof.
  eexists. split; [apply parse_drd_content_any_cap; vm_compute; reflexivity|].
  vm_compute. reflexivity.
Qed.

(** A Level number above the cap is the one input on which the parser fails:
    641 digits under a cap of 640. *)
Example level_number_above_cap :
  let content := chars ("Area 1A. x" ++ LF ++ "Level ") ++ replicate 641 "7"%char
                 ++ chars ". y" in
  parse_drd_content 640 content = None ∧ is_Some (parse_drd_content 0 content).
Proof. split; [vm_compute; reflexivity|]. rewrite parse_drd_content_no_cap. by eexists. Qed.

(** ** The patterns read without backtracking *)

Lemma take_drop_while p s : take_while p s ++ drop_while p s = s.
Proof. induction s as [|c s IH]; simpl; [done|]. destruct (p c); simpl; by rewrite ?IH. Qed.

Lemma take_while_Forall p s : Forall (λ c, p c = true) (take_while p s).
Proof.
  induction s as [|c s IH]; simpl; [constructor|].
  destruct (p c) eqn:Hc; by constructor.
Qed.

Lemma drop_while_head p s c : head (drop_while p s) = Some c → p c = false.
Proof.
  induction s as [|x s IH]; simpl; [done|].
  destruct (p x) eqn:Hx; [done|]. simpl. by intros [= <-].
Qed.

Lemma lstrip_drop_while s : lstrip s = drop_while is_space s.
Proof. induction s as [|c s IH]; simpl; [done|]. by rewrite IH. Qed.

(** A greedy repetition takes the longest run when the rest of the pattern
    succeeds after it, or cannot start with a character of the class. *)
Lemma greedy_longest p k s :
  is_Some (k (drop_while p s)) ∨ (∀ c t, p c = true → k (c :: t) = None) →
  greedy p k s = pair (take_while p s) <$> k (drop_while p s).
Proof.
  induction s as [|c s IH]; simpl; [done|].
  destruct (p c) eqn:Hc; [|done]. intros Hk. rewrite (IH Hk).
  destruct (k (drop_while p s)) as [r|] eqn:Hr; simpl; [done|].
  destruct Hk as [[? [=]]|Hk]. by rewrite (Hk c s Hc).
Qed.

Lemma match_star cap p re s :
  (∀ t, is_Some (match_here re t)) ∨ (∀ c t, p c = true → match_here re (c :: t) = None) →
  match_here ((cap, Star p) :: re) s
  = emit cap (take_while p s) <$> match_here re (drop_while p s).
Proof.
  intros Hk. simpl. rewrite greedy_longest.
  - by destruct (match_here re (drop_while p s)).
  - destruct Hk as [Hk|Hk]; [left; apply Hk|by right].
Qed.

Lemma match_plus cap p re s :
  (∀ c t, p c = true → match_here re (c :: t) = None) →
  match_here ((cap, Plus p) :: re) s
  = match take_while p s with
    | [] => None
    | w => emit cap w <$> match_here re (drop_while p s)
    end.
Proof.
  intros Hk. destruct s as [|c s]; simpl; [done|].
  destruct (p c) eqn:Hc; [|done]. rewrite greedy_longest by (by right).
  by destruct (match_here re (drop_while p s)).
Qed.

Lemma match_lit_prefix pre re s :
  match_here (lit (string_of_list_ascii pre) ++ re) s
  = t ← after_prefix pre s;
    (λ r : found, (r.1, length pre + r.2)) <$> match_here re t.
Proof.
  unfold lit, chars. rewrite list_ascii_of_string_of_list_ascii.
  revert s. induction pre as [|x pre IH]; intros s.
  - simpl. by destruct (match_here re s) as [[gs n]|].
  - destruct s as [|c s]; [done|]. rewrite fmap_cons. simpl.
    case_decide; [|done]. rewrite IH.
    destruct (after_prefix pre s) as [t|]; [|done]. simpl.
    by destruct (match_here re t) as [[gs n]|].
Qed.

Lemma space_not_digit c : is_space c = true → is_digit c = false.
Proof.
  unfold is_space, is_digit. generalize (ord c); intros n.
  rewrite !orb_true_iff, !andb_true_iff, andb_false_iff, !Nat.leb_le, !Nat.eqb_eq,
    !Nat.leb_gt. lia.
Qed.

Lemma digit_not_space c : is_digit c = true → is_space c = false.
Proof.
  intros Hd. destruct (is_space c) eqn:Hs; [|done].
  apply space_not_digit in Hs. congruence.
Qed.

Lemma space_not_dot c : is_space c = true → c ≠ "."%char.
Proof. by intros Hs ->. Qed.

Lemma digit_not_dot c : is_digit c = true → c ≠ "."%char.
Proof. by intros Hs ->. Qed.

Lemma match_rest_of_line s :
  match_here [(true, Star not_newline)] s
  = Some ([take_while not_newline s], length (take_while not_newline s)).
Proof.
  rewrite match_star by (left; intros t; by eexists). simpl.
  unfold emit. simpl. by rewrite Nat.add_0_r.
Qed.

Lemma match_cls cap p re s :
  match_here ((cap, Cls p) :: re) s
  = match s with
    | c :: s' => if p c then emit cap [c] <$> match_here re s' else None
    | [] => None
    end.
Proof. done. Qed.

Lemma match_lit cap x re s :
  match_here ((cap, Lit x) :: re) s
  = match s with
    | c :: s' => if decide (c = x) then emit cap [c] <$> match_here re s' else None
    | [] => None
    end.
Proof. done. Qed.

Lemma while_app p w t :
  Forall (λ c, p c = true) w → (∀ c, head t = Some c → p c = false) →
  take_while p (w ++ t) = w ∧ drop_while p (w ++ t) = t.
Proof.
  intros Hw Ht. induction Hw as [|x w Hx _ [IH1 IH2]]; simpl.
  - destruct t as [|c t]; [done|]. simpl. by rewrite (Ht c eq_refl).
  - by rewrite Hx, IH1, IH2.
Qed.

Lemma after_prefix_app pre t : after_prefix pre (pre ++ t) = Some t.
Proof.
  induction pre as [|x pre IH]; simpl; [done|]. by rewrite decide_True.
Qed.

(** X1.  The match of the Area pattern at a position is what one reading from
    left to right gives: the word with its space, one digit, one capital
    letter, a dot, then all white space that follows, line feeds included,
    and the rest of the line reached then, which is group 3; backtracking
    never changes it.  So a text of that shape is an Area header whatever
    follows the dot, and the name captured is the next line when nothing but
    white space follows the dot on its own line. *)
Theorem area_pattern_deterministic :
  (∀ s, match_here area_pattern s = area_header s) ∧
  (∀ (d l : ascii) (gap name rest : list ascii),
     is_digit d = true → is_upper l = true →
     Forall (λ c, is_space c = true) gap →
     Forall (λ c, not_newline c = true) name →
     (∀ c, head (name ++ rest) = Some c → is_space c = false) →
     (∀ c, head rest = Some c → not_newline c = false) →
     match_here area_pattern (chars "Area " ++ d :: l :: "."%char :: gap ++ name ++ rest)
     = Some ([[d]; [l]; name], 8 + length gap + length name)).
Proof.
  assert (∀ s, match_here area_pattern s = area_header s) as Hdet.
  { intros s.
      unfold area_pattern, area_header.
      rewrite (match_lit_prefix (chars "Area ")).
      destruct (after_prefix (chars "Area ") s) as [t|]; [|done]. cbn [mbind option_bind].
      rewrite match_cls. destruct t as [|d t]; [done|].
      destruct (is_digit d); [|by destruct t as [|? [|? ?]]].
      rewrite match_cls. destruct t as [|l t]; [done|].
      destruct (is_upper l); [|by destruct t].
      rewrite match_lit. destruct t as [|dot t]; [done|].
      case_decide as Hdot.
      - rewrite bool_decide_eq_true_2 by done.
        rewrite match_star by (left; intros u; rewrite match_rest_of_line; by eexists).
        rewrite match_rest_of_line. simpl. unfold emit. simpl.
        f_equal; f_equal; lia.
      - by rewrite bool_decide_eq_false_2. }
  split; [done|].
  intros d l gap name rest Hd Hl Hgap Hname Hstart Hend.
  rewrite Hdet. unfold area_header.
  rewrite after_prefix_app. cbn [mbind option_bind]. rewrite Hd, Hl.
  rewrite bool_decide_eq_true_2 by done. cbn [andb].
  destruct (while_app is_space gap (name ++ rest) Hgap Hstart) as [-> ->].
  by destruct (while_app not_newline name rest Hname Hend) as [-> _].
Qed.

Lemma area_pattern_deterministic_witness :
  match_here area_pattern
    (chars "Area " ++ "4"%char :: "B"%char :: "."%char ::
       [newline; space] ++ chars "Level 1. Basic" ++ [newline; "x"%char])
  = Some ([chars "4"; chars "B"; chars "Level 1. Basic"], 8 + 2 + 14).
Proof.
  apply (proj2 area_pattern_deterministic "4"%char "B"%char [newline; space]
           (chars "Level 1. Basic") [newline; "x"%char]).
  - reflexivity.
  - reflexivity.
  - by repeat constructor.
  - by repeat constructor.
  - by intros c [= <-].
  - by intros c [= <-].
Defined.

(** X2.  The match of the Level pattern at a position is what one reading
    from left to right gives: the word, white space, the longest run of
    digits (at least one), white space, a dot, white space, and the rest of
    the line reached then, which is group 2.  So a text of that shape is a
    Level header, with the whole run of digits as group 1. *)
Theorem level_pattern_deterministic :
  (∀ s, match_here level_pattern s = level_header s) ∧
  (∀ gap1 digits gap2 gap3 title rest : list ascii,
     Forall (λ c, is_space c = true) gap1 →
     digits ≠ [] → Forall (λ c, is_digit c = true) digits →
     Forall (λ c, is_space c = true) gap2 →
     Forall (λ c, is_space c = true) gap3 →
     Forall (λ c, not_newline c = true) title →
     (∀ c, head (title ++ rest) = Some c → is_space c = false) →
     (∀ c, head rest = Some c → not_newline c = false) →
     match_here level_pattern
       (chars "Level" ++ gap1 ++ digits ++ gap2 ++ "."%char :: gap3 ++ title ++ rest)
     = Some ([digits; title],
             5 + length gap1 + length digits + length gap2 + 1 + length gap3
             + length title)).
Proof.
  assert (∀ s, match_here level_pattern s = level_header s) as Hdet.
  { intros s.
      unfold level_pattern, level_header.
      rewrite (match_lit_prefix (chars "Level")).
      destruct (after_prefix (chars "Level") s) as [t|]; [|done]. cbn [mbind option_bind].
      assert (∀ re c u, is_space c = true →
                match_here ((false, Lit "."%char) :: re) (c :: u) = None) as Hdot_space.
      { intros re c u Hc. rewrite match_lit.
        by rewrite decide_False by (by apply space_not_dot). }
      rewrite match_star.
      2:{ right. intros c u Hc. rewrite match_plus.
          - cbn [take_while]. by rewrite (space_not_digit c Hc).
          - intros c' u' Hc'. rewrite match_star by (right; apply Hdot_space).
            cbn [take_while drop_while]. rewrite (digit_not_space c' Hc'), match_lit.
            by rewrite decide_False by (by apply digit_not_dot). }
      rewrite match_plus.
      2:{ intros c u Hc. rewrite match_star by (right; apply Hdot_space).
          cbn [take_while drop_while]. rewrite (digit_not_space c Hc), match_lit.
          by rewrite decide_False by (by apply digit_not_dot). }
      destruct (take_while is_digit (drop_while is_space t)) as [|d ds] eqn:Hds; [done|].
      rewrite match_star by (right; apply Hdot_space).
      rewrite match_lit.
      destruct (drop_while is_space (drop_while is_digit (drop_while is_space t)))
        as [|dot t3] eqn:Ht3; [done|].
      case_decide as Hdot.
      - rewrite bool_decide_eq_true_2 by done.
        rewrite match_star by (left; intros u; rewrite match_rest_of_line; by eexists).
        rewrite match_rest_of_line. simpl. unfold emit. simpl.
        f_equal; f_equal; lia.
      - by rewrite bool_decide_eq_false_2. }
  split; [done|].
  intros gap1 digits gap2 gap3 title rest Hgap1 Hne Hdigits Hgap2 Hgap3 Htitle Hstart Hend.
  rewrite Hdet. unfold level_header.
  rewrite after_prefix_app. cbn [mbind option_bind].
  destruct (while_app is_space gap1
              (digits ++ gap2 ++ "."%char :: gap3 ++ title ++ rest) Hgap1) as [-> ->].
  { destruct Hdigits as [|x ds Hx _]; [done|]. simpl. intros c [= <-].
    by apply digit_not_space. }
  destruct (while_app is_digit digits
              (gap2 ++ "."%char :: gap3 ++ title ++ rest) Hdigits) as [-> ->].
  { destruct Hgap2 as [|x ws Hx _]; simpl; intros c [= <-]; [done|].
    by apply space_not_digit. }
  destruct (while_app is_space gap2 ("."%char :: gap3 ++ title ++ rest) Hgap2)
    as [-> ->]; [by intros c [= <-]|].
  destruct digits as [|x ds]; [done|].
  rewrite bool_decide_eq_true_2 by done.
  destruct (while_app is_space gap3 (title ++ rest) Hgap3 Hstart) as [-> ->].
  destruct (while_app not_newline title rest Htitle Hend) as [-> _].
  f_equal; f_equal; simpl; lia.
Qed.

Lemma level_pattern_deterministic_witness :
  match_here level_pattern
    (chars "Level" ++ [space] ++ chars "07" ++ [space] ++ "."%char :: [] ++
       chars "Managed" ++ [newline])
  = Some ([chars "07"; chars "Managed"], 5 + 1 + 2 + 1 + 1 + 0 + 7).
Proof.
  apply (proj2 level_pattern_deterministic [space] (chars "07") [space] []
           (chars "Managed") [newline]).
  - by repeat constructor.
  - done.
  - by repeat constructor.
  - by repeat constructor.
  - constructor.
  - by repeat constructor.
  - by intros c [= <-].
  - by intros c [= <-].
Defined.

(** ** The scan finds every match and nothing else *)

Lemma scan_sound re pos skip s m :
  m ∈ scan re pos skip s →
  pos + skip ≤ m_start m ∧ m_end m ≤ pos + length s ∧
  match_here re (drop (m_start m - pos) s) = Some (m_groups m, m_end m - m_start m).
Proof.
  revert pos skip. induction s as [|c s IH]; intros pos skip.
  - destruct skip as [|k]; simpl; [|by intros ?%elem_of_nil].
    destruct (match_here re []) as [[gs n]|] eqn:Hm; [|by intros ?%elem_of_nil].
    intros ->%list_elem_of_singleton. simpl.
    pose proof (match_here_Some _ _ _ _ Hm) as [Hn _]. simpl in Hn.
    replace (pos + n - pos) with n by lia. replace (pos - pos) with 0 by lia.
    split_and!; [lia..|done].
  - assert (∀ k, m ∈ scan re (S pos) k s →
              pos + S k ≤ m_start m ∧ m_end m ≤ pos + S (length s) ∧
              match_here re (drop (m_start m - pos) (c :: s))
              = Some (m_groups m, m_end m - m_start m)) as Hrest.
    { intros k (? & ? & Hm)%IH. split_and!; [lia..|].
      by replace (m_start m - pos) with (S (m_start m - S pos)) by lia. }
    destruct skip as [|k]; simpl; [|by apply Hrest].
    destruct (match_here re (c :: s)) as [[gs n]|] eqn:Hm.
    + intros [->|Hin]%elem_of_cons.
      * simpl. pose proof (match_here_Some _ _ _ _ Hm) as [Hn _]. simpl in Hn.
        replace (pos - pos) with 0 by lia. replace (pos + n - pos) with n by lia.
        split_and!; [lia..|done].
      * destruct (Hrest _ Hin) as (? & ? & ?). split_and!; [lia|done..].
    + intros Hin. destruct (Hrest _ Hin) as (? & ? & ?). split_and!; [lia|done..].
Qed.

Lemma scan_complete re pos skip s q :
  skip ≤ q → q ≤ length s → is_Some (match_here re (drop q s)) →
  ∃ m, m ∈ scan re pos skip s ∧ m_start m ≤ pos + q ∧
    (pos + q < m_end m ∨ pos + q = m_start m).
Proof.
  revert pos skip q. induction s as [|c s IH]; intros pos skip q Hskip Hq Hm.
  - simpl in Hq. assert (q = 0) as -> by lia. assert (skip = 0) as -> by lia.
    simpl in *. destruct Hm as [[gs n] Hm]. rewrite Hm.
    eexists. split; [by left|]. simpl. lia.
  - destruct skip as [|k]; simpl.
    + destruct q as [|q].
      * simpl in Hm. destruct Hm as [[gs n] Hm]. rewrite Hm.
        eexists. split; [by left|]. simpl. lia.
      * simpl in Hm, Hq. destruct (match_here re (c :: s)) as [[gs n]|] eqn:Hhead.
        -- destruct (decide (n - 1 ≤ q)) as [Hn|Hn].
           ++ destruct (IH (S pos) (n - 1) q Hn ltac:(lia) Hm) as (m & Hin & ? & ?).
              exists m. split; [by right|]. lia.
           ++ eexists. split; [by left|]. simpl. lia.
        -- destruct (IH (S pos) 0 q ltac:(lia) ltac:(lia) Hm) as (m & Hin & ? & ?).
           exists m. split; [done|]. lia.
    + destruct q as [|q]; [lia|]. simpl in Hm, Hq.
      destruct (IH (S pos) k q ltac:(lia) ltac:(lia) Hm) as (m & Hin & ? & ?).
      exists m. split; [done|]. lia.
Qed.

(** X3.  [finditer] returns exactly the matches of the leftmost,
    non-overlapping scan: every match object is a match of the pattern at its
    start, inside the buffer, and every position at which the pattern matches
    is the start of a match object or lies inside one, so that no header is
    passed over. *)
Theorem finditer_sound_complete (re : regex) (s : list ascii) :
  (∀ m, m ∈ finditer re s →
     m_end m ≤ length s ∧
     match_here re (drop (m_start m) s) = Some (m_groups m, m_end m - m_start m)) ∧
  (∀ q, q ≤ length s → is_Some (match_here re (drop q s)) →
     ∃ m, m ∈ finditer re s ∧ m_start m ≤ q ∧ (q < m_end m ∨ q = m_start m)).
Proof.
  split.
  - intros m (_ & ? & Hm)%scan_sound. rewrite Nat.sub_0_r in Hm. by split.
  - intros q Hq Hm. apply (scan_complete re 0 0 s q); [lia|done..].
Qed.

Lemma finditer_sound_complete_witness :
  ∃ m, m ∈ finditer area_pattern scenario ∧ m_start m ≤ 72 ∧
    (72 < m_end m ∨ 72 = m_start m).
Proof.
  apply (finditer_sound_complete area_pattern scenario); [vm_compute; lia|].
  vm_compute. by eexists.
Defined.

Lemma match_here_min_length re s gs n :
  match_here re s = Some (gs, n) → min_length re ≤ n.
Proof.
  revert s gs n. induction re as [|[cap a] re IH]; intros s gs n;
    [intros _; apply Nat.le_0_l|].
  unfold min_length. rewrite fmap_cons. simpl. fold (min_length re).
  destruct a as [x|p|p|p].
  - destruct s as [|c s]; [done|]. case_decide; [|done].
    destruct (match_here re s) as [[gs' n']|] eqn:Hm; intros [= <- <-].
    apply IH in Hm. simpl. lia.
  - destruct s as [|c s]; [done|]. destruct (p c); [|done].
    destruct (match_here re s) as [[gs' n']|] eqn:Hm; intros [= <- <-].
    apply IH in Hm. simpl. lia.
  - destruct (greedy p (match_here re) s) as [[w [gs' n']]|] eqn:Hg; intros [= <- <-].
    apply greedy_Some in Hg as (s' & _ & Hm & _). apply IH in Hm. simpl. lia.
  - destruct s as [|c s]; [done|]. destruct (p c); [|done].
    destruct (greedy p (match_here re) s) as [[w [gs' n']]|] eqn:Hg; intros [= <- <-].
    apply greedy_Some in Hg as (s' & _ & Hm & _). apply IH in Hm. simpl. lia.
Qed.

Lemma placed_count k lo hi ms :
  (∀ m, m ∈ ms → m_start m + k ≤ m_end m) → placed lo hi ms →
  ms = [] ∨ lo + k * length ms ≤ hi.
Proof.
  revert lo. induction ms as [|m ms IH]; intros lo Hk; [by left|].
  simpl. intros (? & ? & ? & Hp). right.
  pose proof (Hk m (list_elem_of_here _ _)).
  destruct (IH (m_end m)) as [->|?]; [|done|simpl; lia|lia].
  intros m' ?. apply Hk. by right.
Qed.

(** X4.  Headers are never empty: an Area match has at least 8 characters
    and a Level match at least 7, so a text of [n] characters has at most
    [n/8] Area headers and at most [n/7] Level headers. *)
Theorem headers_not_empty (s : list ascii) :
  (∀ m, m ∈ finditer area_pattern s → m_start m + 8 ≤ m_end m) ∧
  (∀ m, m ∈ finditer level_pattern s → m_start m + 7 ≤ m_end m) ∧
  8 * length (finditer area_pattern s) ≤ length s ∧
  7 * length (finditer level_pattern s) ≤ length s.
Proof.
  assert (∀ m, m ∈ finditer area_pattern s → m_start m + 8 ≤ m_end m) as Harea.
  { intros m (_ & _ & Hm%match_here_min_length)%scan_sound.
    change (min_length area_pattern) with 8 in Hm. lia. }
  assert (∀ m, m ∈ finditer level_pattern s → m_start m + 7 ≤ m_end m) as Hlevel.
  { intros m (_ & _ & Hm%match_here_min_length)%scan_sound.
    change (min_length level_pattern) with 7 in Hm. lia. }
  split_and!; [done..| |].
  - destruct (placed_count 8 0 _ _ Harea (finditer_placed area_pattern s)) as [->|?];
      simpl; lia.
  - destruct (placed_count 7 0 _ _ Hlevel (finditer_placed level_pattern s)) as [->|?];
      simpl; lia.
Qed.

(** ** Text before the first header *)

Lemma shift_shift a b m : shift a (shift b m) = shift (a + b) m.
Proof. unfold shift. simpl. f_equal; lia. Qed.

Lemma scan_shift re pos skip s : scan re pos skip s = shift pos <$> scan re 0 skip s.
Proof.
  revert pos skip. induction s as [|c s IH]; intros pos skip.
  - destruct skip as [|k]; simpl; [|done].
    destruct (match_here re []) as [[gs n]|]; [|done].
    rewrite fmap_cons. unfold shift. simpl. do 2 f_equal. lia.
  - assert (∀ k, scan re (S pos) k s = shift pos <$> scan re 1 k s) as Hrest.
    { intros k. rewrite (IH (S pos)), (IH 1), <- list_fmap_compose.
      apply list_fmap_ext. intros i m _. simpl. rewrite shift_shift.
      f_equal. lia. }
    destruct skip as [|k]; simpl; [|apply Hrest].
    destruct (match_here re (c :: s)) as [[gs n]|]; [|apply Hrest].
    rewrite fmap_cons, Hrest. unfold shift at 2. simpl. do 2 f_equal. lia.
Qed.

Lemma scan_first re pos s m0 ms :
  scan re pos 0 s = m0 :: ms →
  pos ≤ m_start m0 ∧ m_start m0 ≤ pos + length s ∧
  scan re pos 0 s = scan re (m_start m0) 0 (drop (m_start m0 - pos) s).
Proof.
  revert pos. induction s as [|c s IH]; intros pos.
  - simpl. destruct (match_here re []) as [[gs n]|] eqn:Hm; [|done].
    intros [= <- <-]. simpl. rewrite Nat.sub_diag. simpl. rewrite Hm.
    split_and!; [lia..|done].
  - simpl. destruct (match_here re (c :: s)) as [[gs n]|] eqn:Hm.
    + intros [= <- <-]. simpl. rewrite Nat.sub_diag. simpl. rewrite Hm.
      split_and!; [lia..|done].
    + intros Hs. destruct (IH _ Hs) as (? & ? & Heq). split_and!; [lia..|].
      rewrite Heq. f_equal.
      by replace (m_start m0 - pos) with (S (m_start m0 - S pos)) by lia.
Qed.

Lemma finditer_drop_first re s m0 :
  head (finditer re s) = Some m0 →
  m_start m0 ≤ length s ∧
  finditer re s = shift (m_start m0) <$> finditer re (drop (m_start m0) s).
Proof.
  unfold finditer. destruct (scan re 0 0 s) as [|m ms] eqn:Hs; [done|].
  intros [= ->]. destruct (scan_first _ _ _ _ _ Hs) as (_ & ? & Heq).
  split; [lia|]. rewrite <- Hs, Heq, Nat.sub_0_r. apply scan_shift.
Qed.

Lemma slice_shift s p a b : slice s (p + a) (p + b) = slice (drop p s) a b.
Proof.
  unfold slice. rewrite drop_drop. f_equal. lia.
Qed.

Lemma span_text_shift s p ms i m :
  p ≤ length s →
  span_text s (shift p <$> ms) i (shift p m) = span_text (drop p s) ms i m.
Proof.
  intros Hp. unfold span_text, span_end. rewrite list_lookup_fmap.
  destruct (ms !! (i + 1)) as [next|]; simpl.
  - apply slice_shift.
  - rewrite length_drop. replace (length s) with (p + (length s - p)) at 1 by lia.
    apply slice_shift.
Qed.

Lemma contributions_drop_first content m0 :
  head (finditer area_pattern content) = Some m0 →
  contributions content = contributions (drop (m_start m0) content) ∧
  (∀ cap, within_cap cap content ↔ within_cap cap (drop (m_start m0) content)).
Proof.
  intros [Hp Heq]%finditer_drop_first. split.
  - unfold contributions. cbv zeta. rewrite Heq, imap_fmap.
    apply imap_ext. intros i m Hi. simpl. f_equal.
    unfold area_of. f_equal. by rewrite span_text_shift.
  - intros cap. unfold within_cap. rewrite Heq. split.
    + intros H i m Hi. rewrite <- span_text_shift by done. apply H.
      by rewrite list_lookup_fmap, Hi.
    + intros H i m. rewrite list_lookup_fmap.
      destruct (finditer area_pattern (drop (m_start m0) content) !! i) as [m'|] eqn:Hi;
        [|done].
      intros [= <-]. rewrite span_text_shift by done. by apply H.
Qed.

(** X5.  What precedes the first Area header never reaches the tree: the
    parser returns on a buffer what it returns on the buffer cut at the start
    of its first Area header (and fails on one when it fails on the other). *)
Theorem text_before_first_header_ignored (max_str_digits : nat) (content : list ascii)
    (m0 : rmatch) :
  head (finditer area_pattern content) = Some m0 →
  parse_drd_content max_str_digits content
  = parse_drd_content max_str_digits (drop (m_start m0) content).
Proof.
  intros [Hc Hcap]%contributions_drop_first.
  destruct (parse_drd_content max_str_digits content) as [res|] eqn:Hres.
  - apply parse_drd_content_inv in Hres as [-> Hw]. symmetry.
    rewrite Hc. by apply parse_drd_content_Some, Hcap.
  - destruct (parse_drd_content max_str_digits (drop (m_start m0) content))
      as [res'|] eqn:Hres'; [|done].
    apply parse_drd_content_inv in Hres' as [_ Hw]. apply Hcap in Hw.
    apply (parse_drd_content_Some max_str_digits) in Hw. congruence.
Qed.

Lemma text_before_first_header_ignored_witness :
  parse_drd_content default_max_str_digits
    (chars ("Level 9. stray" ++ LF ++ "preface ") ++ scenario)
  = parse_drd_content default_max_str_digits scenario.
Proof.
  apply (text_before_first_header_ignored default_max_str_digits
           (chars ("Level 9. stray" ++ LF ++ "preface ") ++ scenario)
           {| m_start := 23; m_end := 41;
              m_groups := [chars "1"; chars "A"; chars "Processes"] |}).
  vm_compute; reflexivity.
Defined.

(** ** Stripping removes white space at the ends only *)

Lemma lstrip_decompose s : s = take_while is_space s ++ lstrip s.
Proof. by rewrite lstrip_drop_while, take_drop_while. Qed.

(** X6.  [strip] removes white space at the two ends and nothing else: the
    text is a run of white space, the stripped text, and a run of white
    space, and the stripped text neither starts nor ends with white space. *)
Theorem strip_decompose (s : list ascii) :
  ∃ pre suf,
    s = pre ++ strip s ++ suf ∧
    Forall (λ c, is_space c = true) pre ∧
    Forall (λ c, is_space c = true) suf ∧
    trimmed (strip s).
Proof.
  exists (take_while is_space s),
         (reverse (take_while is_space (reverse (lstrip s)))).
  split_and!.
  - unfold strip, rstrip. rewrite <- reverse_app, <- lstrip_decompose.
    rewrite reverse_involutive. apply lstrip_decompose.
  - apply take_while_Forall.
  - apply Forall_reverse, take_while_Forall.
  - apply strip_trimmed.
Qed.

Lemma lstrip_elem s c : c ∈ lstrip s → c ∈ s.
Proof.
  induction s as [|x s IH]; simpl; [done|].
  destruct (is_space x); [|done]. intros ?%IH. by right.
Qed.

Lemma strip_elem s c : c ∈ strip s → c ∈ s.
Proof.
  unfold strip, rstrip. rewrite elem_of_reverse. intros Hc%lstrip_elem.
  rewrite elem_of_reverse in Hc. by apply lstrip_elem.
Qed.

Lemma length_lstrip s : length (lstrip s) ≤ length s.
Proof.
  induction s as [|x s IH]; simpl; [done|]. destruct (is_space x); simpl; lia.
Qed.

(** ** What the tree holds *)

Lemma str_digit d : is_digit d = true → str (digits_value [d]) = [d].
Proof.
  destruct d as [b0 b1 b2 b3 b4 b5 b6 b7].
  destruct b0, b1, b2, b3, b4, b5, b6, b7; try discriminate; reflexivity.
Qed.

Lemma digit_value_range d : is_digit d = true → (0 ≤ digit_value d ≤ 9)%Z.
Proof.
  unfold is_digit, digit_value. rewrite andb_true_iff, !Nat.leb_le. lia.
Qed.

Lemma digits_value_nonneg ds :
  Forall (λ c, is_digit c = true) ds → (0 ≤ digits_value ds)%Z.
Proof.
  intros Hd. unfold digits_value.
  assert (∀ acc, (0 ≤ acc)%Z →
            (0 ≤ foldl (λ acc c, 10 * acc + digit_value c) acc ds)%Z) as H; [|by apply H].
  induction Hd as [|d ds Hd _ IH]; intros acc Hacc; simpl; [done|].
  apply IH. pose proof (digit_value_range d Hd). lia.
Qed.

Lemma area_match_fields s m :
  m ∈ finditer area_pattern s →
  ∃ d l rest, m_groups m = [[d]; [l]; rest] ∧ is_digit d = true ∧ is_upper l = true ∧
    Forall (λ c, not_newline c = true) rest.
Proof.
  intros [t Ht]%scan_groups. apply match_here_Some in Ht as [_ Hg].
  rewrite captures_area_pattern in Hg.
  apply Forall2_cons_inv_l in Hg as (g1 & gs1 & (d & -> & Hd) & Hg & ->).
  apply Forall2_cons_inv_l in Hg as (g2 & gs2 & (l & -> & Hl) & Hg & ->).
  apply Forall2_cons_inv_l in Hg as (g3 & gs3 & Hrest & Hg & ->).
  apply Forall2_nil_inv_l in Hg as ->. by exists d, l, g3.
Qed.

Lemma level_match_fields s m :
  m ∈ finditer level_pattern s →
  ∃ ds rest, m_groups m = [ds; rest] ∧ ds ≠ [] ∧
    Forall (λ c, is_digit c = true) ds ∧ Forall (λ c, not_newline c = true) rest.
Proof.
  intros [t Ht]%scan_groups. apply match_here_Some in Ht as [_ Hg].
  rewrite captures_level_pattern in Hg.
  apply Forall2_cons_inv_l in Hg as (g1 & gs1 & (Hne & Hd) & Hg & ->).
  apply Forall2_cons_inv_l in Hg as (g2 & gs2 & Hrest & Hg & ->).
  apply Forall2_nil_inv_l in Hg as ->. by exists g1, g2.
Qed.

Lemma strip_no_newline s :
  Forall (λ c, not_newline c = true) s → newline ∉ strip s.
Proof.
  intros Hs Hin%strip_elem. rewrite Forall_forall in Hs. by apply Hs in Hin.
Qed.

Lemma assemble_ids l : axis_id <$> assemble l = first_seen l.*1.
Proof. rewrite assemble_axis_for, <- list_fmap_compose. apply list_fmap_id. Qed.

Lemma parsed_axis cap content res ax :
  parse_drd_content cap content = Some res → ax ∈ res →
  (0 ≤ axis_id ax ≤ 9)%Z ∧ axis_name ax = chars "Axis " ++ str (axis_id ax).
Proof.
  intros [-> _]%parse_drd_content_inv Hax. rewrite assemble_axis_for in Hax.
  apply list_elem_of_fmap in Hax as (n & -> & Hn). simpl. split; [|done].
  rewrite elem_of_first_seen, contributions_ids in Hn.
  apply list_elem_of_fmap in Hn as (m & -> & Hm).
  apply area_match_fields in Hm as (d & l & rest & Hg & Hd & _).
  unfold axis_num_of, group_text, group. rewrite Hg. simpl.
  pose proof (digit_value_range d Hd). unfold digits_value. simpl. lia.
Qed.

(** X7.  In every tree the parser returns, the id of an Axis is a number from
    0 to 9 and its name is the placeholder made of that number; there are at
    most ten Axis entries; and the id of each Area is two characters, the
    digit of its Axis and a capital letter. *)
Theorem tree_ids (max_str_digits : nat) (content : list ascii) (res : list Axis) :
  parse_drd_content max_str_digits content = Some res →
  length res ≤ 10 ∧
  ∀ ax, ax ∈ res →
    (0 ≤ axis_id ax ≤ 9)%Z ∧
    axis_name ax = chars "Axis " ++ str (axis_id ax) ∧
    ∀ ar, ar ∈ areas ax →
      ∃ d l, area_id ar = [d; l] ∧ is_digit d = true ∧ is_upper l = true ∧
        digit_value d = axis_id ax ∧ str (axis_id ax) = [d].
Proof.
  intros Hres.
  assert (∀ ax, ax ∈ res → (0 ≤ axis_id ax ≤ 9)%Z) as Hrange
    by (intros ax Hax; by apply (parsed_axis _ _ _ _ Hres Hax)).
  split.
  - rewrite <- (length_fmap axis_id).
    change 10 with (length [0; 1; 2; 3; 4; 5; 6; 7; 8; 9]%Z).
    apply submseteq_length, NoDup_submseteq.
    { pose proof Hres as [-> _]%parse_drd_content_inv.
      rewrite assemble_ids. apply NoDup_first_seen. }
    intros n (ax & -> & Hax)%list_elem_of_fmap. pose proof (Hrange ax Hax).
    rewrite !elem_of_cons. lia.
  - intros ax Hax. split; [by apply Hrange|].
    split; [by apply (parsed_axis _ _ _ _ Hres Hax)|].
    pose proof Hres as [-> _]%parse_drd_content_inv.
    intros ar Har.
    destruct (elem_of_assemble _ _ _ Hax Har) as (i & m & Hi & Hid & ->).
    apply list_elem_of_lookup_2, area_match_fields in Hi
      as (d & l & rest & Hg & Hd & Hl & _).
    exists d, l. rewrite Hid. unfold area_of, axis_num_of, group_text, group.
    rewrite Hg. simpl. rewrite (str_digit d Hd).
    split_and!; [done..| |done]. unfold digits_value. simpl. lia.
Qed.

Lemma tree_ids_witness :
  length [scenario_axis] ≤ 10.
Proof.
  apply (tree_ids default_max_str_digits scenario [scenario_axis]).
  vm_compute; reflexivity.
Defined.

(** X8.  In every tree the parser returns, every Area is the Area of an outer
    match and holds what the inner loop returns on the text of that match's
    span alone: one Level per Level header of that text, in the order of the
    headers, with the number the header's digits convert to, its title
    stripped, and the normalized text of its own span. *)
Theorem area_levels (max_str_digits : nat) (content : list ascii) (res : list Axis)
    (ax : Axis) (ar : Area) :
  parse_drd_content max_str_digits content = Some res →
  ax ∈ res → ar ∈ areas ax →
  ∃ i m,
    finditer area_pattern content !! i = Some m ∧
    let area_text := span_text content (finditer area_pattern content) i m in
    let level_matches := finditer level_pattern area_text in
    parse_levels max_str_digits area_text = Some (levels ar) ∧
    length (levels ar) = length level_matches ∧
    ∀ j l_match, level_matches !! j = Some l_match →
      ∃ lv, levels ar !! j = Some lv ∧
        int max_str_digits (group_text l_match 1) = Some (level lv) ∧
        title lv = strip (group_text l_match 2) ∧
        description lv
        = normalize_description (span_text area_text level_matches j l_match).
Proof.
  intros Hres Hax Har. pose proof Hres as [-> Hcap]%parse_drd_content_inv.
  destruct (elem_of_assemble _ _ _ Hax Har) as (i & m & Hi & _ & ->).
  exists i, m. split; [done|]. intros area_text level_matches.
  pose proof (Hcap i m Hi) as Hlv. fold area_text in Hlv. split_and!.
  - by apply parse_levels_Some.
  - simpl. unfold levels_of. apply length_imap.
  - intros j l_match Hj. exists (level_of area_text level_matches j l_match).
    split_and!; [|..|done|done].
    + simpl. unfold levels_of. fold area_text level_matches.
      by rewrite list_lookup_imap, Hj.
    + pose proof Hj as (ds & rest & Hg & Hne & Hd & _)%list_elem_of_lookup_2%level_match_fields.
      pose proof (Hlv j l_match Hj) as Hfit.
      assert (group_text l_match 1 = ds) as Hg1
        by (unfold group_text, group; by rewrite Hg).
      rewrite Hg1 in Hfit. simpl. rewrite Hg1. by apply int_digits.
Qed.

Lemma area_levels_witness :
  ∃ i m, finditer area_pattern scenario !! i = Some m ∧
    parse_levels default_max_str_digits
      (span_text scenario (finditer area_pattern scenario) i m)
    = Some (levels scenario_area_1B).
Proof.
  destruct (area_levels default_max_str_digits scenario [scenario_axis]
              scenario_axis scenario_area_1B) as (i & m & Hi & Hlv & _).
  - vm_compute; reflexivity.
  - apply list_elem_of_here.
  - apply list_elem_of_further, list_elem_of_here.
  - by exists i, m.
Defined.

(** X9.  In every tree the parser returns, Area names and Level titles have no
    white space at either end and no line feed, and Level numbers are not
    negative. *)
Theorem names_and_titles (max_str_digits : nat) (content : list ascii)
    (res : list Axis) (ax : Axis) (ar : Area) :
  parse_drd_content max_str_digits content = Some res →
  ax ∈ res → ar ∈ areas ax →
  trimmed (area_name ar) ∧ (newline ∉ area_name ar) ∧
  ∀ lv, lv ∈ levels ar →
    trimmed (title lv) ∧ (newline ∉ title lv) ∧ (0 ≤ level lv)%Z.
Proof.
  intros [-> _]%parse_drd_content_inv Hax Har.
  destruct (elem_of_assemble _ _ _ Hax Har) as (i & m & Hi & _ & ->).
  apply list_elem_of_lookup_2, area_match_fields in Hi
    as (d & l & rest & Hg & _ & _ & Hrest).
  split_and!.
  - apply strip_trimmed.
  - simpl. unfold group_text, group. rewrite Hg. simpl. by apply strip_no_newline.
  - intros lv (j & lm & -> & Hj)%elem_of_lookup_imap_1.
    apply list_elem_of_lookup_2, level_match_fields in Hj
      as (ds & title & Hgl & _ & Hds & Htitle).
    simpl. unfold group_text, group. rewrite Hgl. simpl. split_and!.
    + apply strip_trimmed.
    + by apply strip_no_newline.
    + by apply digits_value_nonneg.
Qed.

Lemma names_and_titles_witness :
  trimmed (chars "Processes") ∧ newline ∉ chars "Processes".
Proof.
  destruct (names_and_titles default_max_str_digits scenario [scenario_axis]
              scenario_axis scenario_area_1A) as (Htr & Hnl & _).
  - vm_compute; reflexivity.
  - apply list_elem_of_here.
  - apply list_elem_of_here.
  - split; [exact Htr|exact Hnl].
Defined.

(** ** When the parser fails *)

(** X10.  The parser returns a tree exactly when every Level number, in the
    text of every Area, has no more digits than the interpreter converts (any
    number of digits when there is no cap); no other input makes it fail.
    The tree does not depend on the cap: what is returned under one cap is
    returned under every larger cap and under no cap. *)
Theorem parse_returns_iff (max_str_digits : nat) (content : list ascii) :
  (is_Some (parse_drd_content max_str_digits content) ↔
   ∀ i m j l_match,
     finditer area_pattern content !! i = Some m →
     finditer level_pattern
       (span_text content (finditer area_pattern content) i m) !! j = Some l_match →
     max_str_digits = 0 ∨ length (group_text l_match 1) ≤ max_str_digits) ∧
  (∀ res cap',
     parse_drd_content max_str_digits content = Some res →
     cap' = 0 ∨ (max_str_digits ≠ 0 ∧ max_str_digits ≤ cap') →
     parse_drd_content cap' content = Some res).
Proof.
  split.
  - rewrite parse_drd_content_is_Some. unfold within_cap, levels_convertible.
    split; [intros H i m j lm Hi Hj; by eapply H|intros H i m Hi j lm Hj; by eapply H].
  - intros res cap' [-> Hcap]%parse_drd_content_inv Hle.
    apply parse_drd_content_Some. intros i m Hi j lm Hj.
    destruct (Hcap i m Hi j lm Hj) as [?|?]; destruct Hle as [?|[? ?]];
      [by left|lia|by left|right; lia].
Qed.

Lemma parse_returns_iff_witness :
  parse_drd_content 0 scenario = Some [scenario_axis].
Proof.
  apply (parse_returns_iff default_max_str_digits scenario);
    [vm_compute; reflexivity|by left].
Defined.

(** ** What the normalization keeps *)

Lemma filter_lstrip s :
  filter (λ c, is_space c = false) (lstrip s) = filter (λ c, is_space c = false) s.
Proof.
  induction s as [|c s IH]; simpl; [done|].
  destruct (is_space c) eqn:Hc; [|done].
  by rewrite filter_cons_False by congruence.
Qed.

Lemma filter_strip s :
  filter (λ c, is_space c = false) (strip s) = filter (λ c, is_space c = false) s.
Proof.
  unfold strip, rstrip.
  by rewrite filter_reverse, filter_lstrip, <- filter_reverse, reverse_involutive,
    filter_lstrip.
Qed.

Lemma filter_sub_spaces b s :
  filter (λ c, is_space c = false) (sub_spaces b s)
  = filter (λ c, is_space c = false) s.
Proof.
  revert b. induction s as [|c s IH]; intros b; simpl; [done|].
  destruct (is_space c) eqn:Hc.
  - rewrite (filter_cons_False _ c) by congruence. destruct b; [apply IH|].
    rewrite filter_cons_False by done. apply IH.
  - by rewrite !filter_cons_True, IH by done.
Qed.

Lemma filter_replace_newline s :
  filter (λ c, is_space c = false) (replace newline space s)
  = filter (λ c, is_space c = false) s.
Proof.
  unfold replace. induction s as [|c s IH]; [done|]. rewrite fmap_cons.
  case_decide as Hc.
  - subst c. by rewrite !filter_cons_False by done.
  - rewrite !filter_cons, IH. done.
Qed.

Lemma length_sub_spaces b s : length (sub_spaces b s) ≤ length s.
Proof.
  revert b. induction s as [|c s IH]; intros b; simpl; [done|].
  destruct (is_space c); [destruct b|]; simpl;
    [pose proof (IH true)|pose proof (IH true)|pose proof (IH false)]; lia.
Qed.

Lemma length_strip s : length (strip s) ≤ length s.
Proof.
  unfold strip, rstrip. rewrite length_reverse.
  etrans; [apply length_lstrip|]. rewrite length_reverse. apply length_lstrip.
Qed.

(** X11.  Normalizing a description changes white space only: the characters
    that are not white space are kept, all of them and in their order; the
    text never gets longer; and the result is empty exactly when the text is
    white space throughout. *)
Theorem normalize_description_keeps_text (text : list ascii) :
  filter (λ c, is_space c = false) (normalize_description text)
  = filter (λ c, is_space c = false) text ∧
  length (normalize_description text) ≤ length text ∧
  (normalize_description text = [] ↔ Forall (λ c, is_space c = true) text).
Proof.
  assert (filter (λ c, is_space c = false) (normalize_description text)
          = filter (λ c, is_space c = false) text) as Hkeep.
  { unfold normalize_description, re_sub_spaces.
    by rewrite filter_sub_spaces, filter_strip, filter_replace_newline. }
  split_and!; [done| |].
  - unfold normalize_description, re_sub_spaces.
    etrans; [apply length_sub_spaces|]. etrans; [apply length_strip|].
    unfold replace. by rewrite length_fmap.
  - split.
    + intros Hnil. rewrite Hnil in Hkeep. rewrite Forall_forall. intros c Hc.
      destruct (is_space c) eqn:Hs; [done|].
      assert (c ∈ filter (λ c, is_space c = false) text) as Hin
        by (by apply list_elem_of_filter).
      rewrite <- Hkeep in Hin. by apply elem_of_nil in Hin.
    + intros Hall. destruct (normalize_description text) as [|c d] eqn:Hn; [done|].
      destruct (normalize_description_tidy text) as (_ & _ & Hhead & _).
      rewrite Hn in Hhead. specialize (Hhead c eq_refl).
      assert (c ∈ filter (λ c, is_space c = false) text) as Hin.
      { rewrite <- Hkeep. apply list_elem_of_filter. split; [done|by left]. }
      apply list_elem_of_filter in Hin as [_ Hin].
      rewrite Forall_forall in Hall. specialize (Hall c Hin). congruence.
Qed.

(** ** The enricher, run again and after another *)

Lemma renamed_renamed names1 names2 axis :
  renamed names2 (renamed names1 axis) = renamed (names2 ∪ names1) axis.
Proof.
  unfold renamed. simpl. f_equal. rewrite lookup_union.
  by destruct (names2 !! axis_id axis), (names1 !! axis_id axis).
Qed.

(** X12.  Running the enricher with one table and then with a second gives
    what one run with the second table laid over the first gives; so a second
    run with the same table changes nothing, and the empty table changes
    nothing. *)
Theorem enrich_names_compose (names1 names2 : gmap Z (list ascii)) (data : list Axis) :
  (enrich_names names1 data ≫= enrich_names names2)
  = enrich_names (names2 ∪ names1) data ∧
  (enrich_names names1 data ≫= enrich_names names1) = enrich_names names1 data ∧
  enrich_names ∅ data = Some data.
Proof.
  assert (∀ n1 n2, (enrich_names n1 data ≫= enrich_names n2)
                   = enrich_names (n2 ∪ n1) data) as Hcomp.
  { intros n1 n2. rewrite !enrich_names_total. simpl. rewrite enrich_names_total.
    f_equal. rewrite <- list_fmap_compose. apply list_fmap_ext.
    intros i axis _. apply renamed_renamed. }
  split_and!.
  - apply Hcomp.
  - by rewrite Hcomp, (idemp (∪) names1).
  - rewrite enrich_names_total. f_equal. rewrite <- (list_fmap_id data) at 2.
    apply list_fmap_ext. intros i [id name ars] _. unfold renamed. simpl.
    by rewrite lookup_empty.
Qed.

(** ** The tree that the main block prints *)

Lemma axis_names_lookup n nm :
  axis_names !! n = Some nm → (1 ≤ n ≤ 7)%Z.
Proof.
  intros Hn. assert (is_Some (axis_names !! n)) as Hs by (by eexists).
  rewrite <- elem_of_dom in Hs. unfold axis_names in Hs.
  rewrite dom_list_to_map_L, elem_of_list_to_set in Hs. simpl in Hs.
  rewrite !elem_of_cons, elem_of_nil in Hs. lia.
Qed.

Lemma axis_names_None n : axis_names !! n = None → ¬ (1 ≤ n ≤ 7)%Z.
Proof.
  intros Hn Hr. assert (n ∈ dom axis_names) as Hd.
  { unfold axis_names. rewrite dom_list_to_map_L, elem_of_list_to_set. simpl.
    rewrite !elem_of_cons. lia. }
  apply elem_of_dom in Hd as [nm Hnm]. congruence.
Qed.

(** X13.  The main block fails only where the parser fails, and the tree it
    prints is the parsed tree, with the same ids and Areas in the same order,
    in which an Axis numbered 1 to 7 bears the name of the table and an Axis
    numbered 0, 8 or 9 keeps its placeholder name. *)
Theorem main_data_names (max_str_digits : nat) (content : list ascii) :
  (is_Some (main_data max_str_digits content)
   ↔ is_Some (parse_drd_content max_str_digits content)) ∧
  ∀ out, main_data max_str_digits content = Some out →
    ∃ res, parse_drd_content max_str_digits content = Some res ∧
      axis_id <$> out = axis_id <$> res ∧
      areas <$> out = areas <$> res ∧
      ∀ ax, ax ∈ out →
        (∀ name, axis_names !! axis_id ax = Some name →
           (1 ≤ axis_id ax ≤ 7)%Z ∧ axis_name ax = name) ∧
        (axis_names !! axis_id ax = None →
           axis_id ax ∈ [0; 8; 9]%Z ∧
           axis_name ax = chars "Axis " ++ str (axis_id ax)).
Proof.
  unfold main_data. split.
  - destruct (parse_drd_content max_str_digits content) as [res|]; simpl.
    + rewrite enrich_names_total. split; by eexists.
    + split; by intros [? [=]].
  - intros out. destruct (parse_drd_content max_str_digits content) as [res|] eqn:Hres;
      [|done]. simpl. rewrite enrich_names_total. intros [= <-].
    exists res. split_and!; [done|..].
    + rewrite <- list_fmap_compose. by apply list_fmap_ext.
    + rewrite <- list_fmap_compose. by apply list_fmap_ext.
    + intros ax' (ax & -> & Hax)%list_elem_of_fmap. simpl.
      destruct (parsed_axis max_str_digits content res ax Hres Hax) as (Hrange & Hname).
      split.
      * intros name Hn. rewrite Hn. split; [by eapply axis_names_lookup|done].
      * intros Hn. rewrite Hn. simpl. split; [|done].
        apply axis_names_None in Hn. rewrite !elem_of_cons. lia.
Qed.

Lemma main_data_names_witness :
  ∃ out, main_data default_max_str_digits
           (chars ("Area 8A. Governance" ++ LF ++ "Area 2A. Offering")) = Some out ∧
    axis_name <$> out = [chars "Axis 8"; chars "Digital Products"].
Proof.
  destruct (main_data_names default_max_str_digits
              (chars ("Area 8A. Governance" ++ LF ++ "Area 2A. Offering")))
    as [[_ Hsome] _].
  destruct Hsome as [out Hout]; [vm_compute; by eexists|].
  exists out. split; [exact Hout|].
  vm_compute in Hout. injection Hout as <-. vm_compute; reflexivity.
Defined.
